(** * Handwritten Japanese character recogniser: stroke log and normaliser

    Shallow embedding of [hira_kata_kanji_kuzu.py] (the unified four-family
    tool) and of [hiragana_gui.py] (the single-family hiragana tool).

    Modelling conventions.
    - A PIL image of mode "L" is the list of its rows, each a list of
      pixel values in [0,255] held in [Z].
    - A NumPy array is a shape together with its flat row-major buffer.
      float32/float64 values are read as the rationals they denote
      ([Q]); the float32 operations of the normaliser round to nearest,
      ties to even ([Np.f32]); the other float operations whose rounding
      could matter are commented where they occur.
    - The Tk widgets that carry program state (labels, progress bar, result
      table, message boxes) are fields of the application record; layout
      and theming are not modelled.
    - [ImageDraw.line], [Image.resize], the Keras models, the label
      modules and [np.argsort] (whose order among equal values NumPy
      leaves open) are external to the repository; they are the fields of
      the class [Collaborators]. *)

From Stdlib Require Import String Ascii.
From Stdlib Require Import List ZArith QArith Qround Lia Bool Arith PeanoNat Sorted.
Import ListNotations.
Local Close Scope Q_scope.
Local Open Scope string_scope.
Local Open Scope list_scope.
Local Open Scope nat_scope.

(* ------------------------------------------------------------------ *)
(** ** PIL images *)

Module Img.

Definition image := list (list Z).

(** Image whose pixel at column [x], row [y] is [f x y]. *)
Definition mk_image (w h : nat) (f : nat -> nat -> Z) : image :=
  map (fun y => map (fun x => f x y) (seq 0 w)) (seq 0 h).

(** [Image.new("L", (w, h), color)] *)
Definition Image_new (w h : nat) (color : Z) : image :=
  mk_image w h (fun _ _ => color).

Definition height (im : image) : nat := length im.
Definition width (im : image) : nat := length (hd [] im).

(** [im.size], as PIL gives it: (width, height). *)
Definition size (im : image) : nat * nat := (width im, height im).

Definition getpixel (im : image) (x y : nat) : Z := nth x (nth y im []) 0%Z.

(** [im.crop((x1, y1, x2, y2))] for a box inside the image. *)
Definition crop (im : image) (x1 y1 x2 y2 : nat) : image :=
  mk_image (x2 - x1) (y2 - y1) (fun x y => getpixel im (x1 + x) (y1 + y)).

(** [base.paste(src, (ox, oy))], seen as the new content of [base]. *)
Definition paste (base src : image) (ox oy : nat) : image :=
  mk_image (width base) (height base) (fun x y =>
    if (ox <=? x) && (x <? ox + width src) && (oy <=? y) && (y <? oy + height src)
    then getpixel src (x - ox) (y - oy)
    else getpixel base x y).

(** [ImageOps.invert] on an "L" image. *)
Definition invert (im : image) : image := map (map (fun v => (255 - v)%Z)) im.

End Img.

(* ------------------------------------------------------------------ *)
(** ** NumPy arrays *)

Module Np.

Record ndarray := { shape : list nat; data : list Q }.

(** [np.array(img, dtype=np.float32)]: shape (height, width). *)
Definition array (im : Img.image) : ndarray :=
  {| shape := [Img.height im; Img.width im];
     data := map inject_Z (concat im) |}.

(** Element-wise map ([a / 255.0], [np.clip(a * 1.2, 0, 1)], ...). *)
Definition map_data (f : Q -> Q) (a : ndarray) : ndarray :=
  {| shape := shape a; data := map f (data a) |}.

(** [a.reshape(sh)]; every call site reshapes a buffer of matching size. *)
Definition reshape (a : ndarray) (sh : list nat) : ndarray :=
  {| shape := sh; data := data a |}.

(** [(np.array(img) < 255).any()] *)
Definition any_lt255 (im : Img.image) : bool :=
  existsb (existsb (fun v => (v <? 255)%Z)) im.

(** Column indices of the entries of one row that are below 255. *)
Fixpoint row_where (x : nat) (row : list Z) : list nat :=
  match row with
  | [] => []
  | v :: row' =>
      if (v <? 255)%Z then x :: row_where (S x) row' else row_where (S x) row'
  end.

(** [ys, xs = np.where(np.array(img) < 255)], row-major, as (y, x) pairs. *)
Fixpoint where_from (y : nat) (im : Img.image) : list (nat * nat) :=
  match im with
  | [] => []
  | row :: im' => map (fun x => (y, x)) (row_where 0 row) ++ where_from (S y) im'
  end.

Definition where_lt255 (im : Img.image) : list nat * list nat :=
  let yx := where_from 0 im in (map fst yx, map snd yx).

(** [a.min()] and [a.max()] of a non-empty index array. *)
Definition amin (l : list nat) : nat := fold_right Nat.min (hd 0 l) l.
Definition amax (l : list nat) : nat := fold_right Nat.max 0 l.

Definition Qlt_bool (a b : Q) : bool := negb (Qle_bool b a).

(** [np.argmax]: index of the first occurrence of the maximum; [None]
    stands for the ValueError on an empty array. *)
Fixpoint argmax_from (best_i : nat) (best : Q) (i : nat) (l : list Q) : nat :=
  match l with
  | [] => best_i
  | v :: l' =>
      if Qlt_bool best v then argmax_from i v (S i) l'
      else argmax_from best_i best (S i) l'
  end.

Definition argmax (l : list Q) : option nat :=
  match l with
  | [] => None
  | v :: l' => Some (argmax_from 0 v 1 l')
  end.

(** [np.max] of a non-empty array. *)
Fixpoint max_from (best : Q) (l : list Q) : Q :=
  match l with
  | [] => best
  | v :: l' => if Qlt_bool best v then max_from v l' else max_from best l'
  end.

Definition max (l : list Q) : option Q :=
  match l with
  | [] => None
  | v :: l' => Some (max_from v l')
  end.

(** [np.argsort(p, kind="stable")]: indices in ascending order of value,
    equal values in input order. The programs call [np.argsort] with its
    default kind, whose order among equal values depends on the NumPy
    build; that call is the collaborator [np_argsort] below, and this
    stable sort is one routine that meets its contract. [insert_idx] puts
    index [i], smaller than every index of [l], in front of the first
    entry that is not below it. *)
Fixpoint insert_idx (p : list Q) (i : nat) (l : list nat) : list nat :=
  match l with
  | [] => [i]
  | j :: l' =>
      if Qle_bool (nth i p 0%Q) (nth j p 0%Q) then i :: l
      else j :: insert_idx p i l'
  end.

Definition argsort (p : list Q) : list nat :=
  fold_right (insert_idx p) [] (seq 0 (length p)).

(** str(e) of the ValueError [np.argmax] raises on an empty array. *)
Definition argmax_empty_message : string :=
  "attempt to get argmax of an empty sequence".

(** Rounding to the nearest binary float with [prec] significand bits,
    ties to even (values far from overflow and underflow, as all values
    of the normaliser are). [binade q] is the exponent [e] with
    [2^e <= q < 2^(e+1)], for [q > 0]. *)
Definition pow2 (e : Z) : Q :=
  if (0 <=? e)%Z then inject_Z (2 ^ e) else (1 # Z.to_pos (2 ^ (- e)))%Q.

Definition binade (q : Q) : Z :=
  let e := (Z.log2 (Qnum q) - Z.log2 (Zpos (Qden q)))%Z in
  if Qle_bool (pow2 e) q then e else (e - 1)%Z.

Definition round_half_even (q : Q) : Z :=
  let n := Qnum q in
  let d := Zpos (Qden q) in
  let fl := (n / d)%Z in
  let r := (n mod d)%Z in
  if (d <? 2 * r)%Z then (fl + 1)%Z
  else if (2 * r =? d)%Z then (if Z.odd fl then fl + 1 else fl)%Z
  else fl.

Definition round_float (prec : Z) (q : Q) : Q :=
  match Qnum q with
  | Z0 => 0%Q
  | Zpos _ =>
      let k := (prec - 1 - binade q)%Z in
      Qred (inject_Z (round_half_even (q * pow2 k)) * pow2 (- k))
  | Zneg _ =>
      let k := (prec - 1 - binade (- q))%Z in
      Qred (- (inject_Z (round_half_even (- q * pow2 k)) * pow2 (- k)))
  end.

(** The float32 nearest to a rational: the result of one float32
    operation on the exact values of its operands. *)
Definition f32 (q : Q) : Q := round_float 24 q.

(** Index [a] comes before index [b] in an ascending order that keeps
    equal values in input order. *)
Definition ranks_below (p : list Q) (a b : nat) : Prop :=
  (nth a p 0 < nth b p 0)%Q \/ ((nth a p 0 == nth b p 0)%Q /\ a < b).

End Np.

(* ------------------------------------------------------------------ *)
(** ** Vocabulary shared by the two front ends *)

(** The script families offered by the radio buttons of the unified tool;
    [mode_var] can hold no other value. *)
Inductive mode := hiragana | katakana | kanji | kuzushiji.

(** [current_language]: "en" or "jp". *)
Inductive language := en | jp.

(** A label-table entry: a plain string or a (native, transliterated)
    pair. *)
Inductive label :=
| Plain (s : string)
| Pair (native translit : string).

Inductive exn := IndexError.

Inductive dialog :=
| showwarning (title text : string)
| showerror (title text : string).

(** A pointer event: only its canvas coordinates are read. *)
Record event := { ev_x : Z; ev_y : Z }.

(** One recorded segment: ((x1, y1, x2, y2), width). *)
Definition segment := (Z * Z * Z * Z * Z)%type.
Definition stroke := list segment.

(** The [resample] argument of [Image.resize]: left out, or
    [Image.LANCZOS]. *)
Inductive resample := default_resample | LANCZOS.

(** What the repository takes from outside: Pillow's line rasteriser and
    resampler, the four Keras classifiers, the four label modules and
    NumPy's default sort.
    [model_predict] returns row 0 of the prediction, [None] when the call
    raises, and [predict_error] is then str(e) of the exception.
    [label_error i] is str(e) of the exception a label table raises for
    an index [i] it has no entry for.
    [np_argsort] is [np.argsort] with its default kind: a permutation of
    the indices in non-decreasing order of value; where values are equal
    their order is the routine's own. *)
Class Collaborators := {
  ImageDraw_line : Img.image -> Z * Z * Z * Z -> Z -> Z -> Img.image;
  Image_resize : Img.image -> nat -> nat -> resample -> Img.image;
  model_predict : mode -> Np.ndarray -> option (list Q);
  predict_error : mode -> Np.ndarray -> string;
  hiragana_labels : list label;
  katakana_labels : list label;
  kanji_labels : list label;
  kuzushiji_labels : list label;
  label_error : nat -> string;
  np_argsort : list Q -> list nat;
  np_argsort_indices : forall p x, In x (np_argsort p) <-> x < length p;
  np_argsort_nodup : forall p, NoDup (np_argsort p);
  np_argsort_sorted :
    forall p, StronglySorted (fun a b => nth a p 0 <= nth b p 0)%Q (np_argsort p)
}.

(** The text of an error dialog: f"{what}:\n{str(e)}". *)
Definition failure_text (what message : string) : string :=
  String.append what (String.append (String ":" (String "010" EmptyString)) message).

(* ------------------------------------------------------------------ *)
(** ** The normaliser's geometry ([_preprocess_for_model], up to the
       square canvas) *)

Module Normalizer.

(** [x1, x2 = xs.min(), xs.max()] and [y1, y2 = ys.min(), ys.max()],
    returned as (x1, x2, y1, y2). *)
Definition ink_bbox (img : Img.image) : nat * nat * nat * nat :=
  let '(ys, xs) := Np.where_lt255 img in
  (Np.amin xs, Np.amax xs, Np.amin ys, Np.amax ys).

(** [cropped = img.crop((x1, y1, x2 + 1, y2 + 1))] *)
Definition cropped (img : Img.image) : Img.image :=
  let '(x1, x2, y1, y2) := ink_bbox img in
  Img.crop img x1 y1 (x2 + 1) (y2 + 1).

(** [m = int(0.20 * max(w, h))]. The double 0.20 lies above 1/5 by less
    than 2^-56, so for every size an image can have the product truncates
    to the integer quotient by 5. *)
Definition padding_margin (w h : nat) : nat := Nat.max w h / 5.

(** [canvas = Image.new("L", (w + 2*m, h + 2*m), 255);
     canvas.paste(cropped, (m, m))] *)
Definition padded (cropped : Img.image) : Img.image :=
  let '(w, h) := Img.size cropped in
  let m := padding_margin w h in
  Img.paste (Img.Image_new (w + 2 * m) (h + 2 * m) 255) cropped m m.

(** [side = max(canvas.size); square = Image.new("L", (side, side), 255);
     square.paste(canvas, ((side - canvas.size[0]) // 2,
                           (side - canvas.size[1]) // 2))] *)
Definition squared (canvas : Img.image) : Img.image :=
  let '(cw, ch) := Img.size canvas in
  let side := Nat.max cw ch in
  Img.paste (Img.Image_new side side 255) canvas
            ((side - cw) / 2) ((side - ch) / 2).

(** [np.clip(v, lo, hi)] on one value. *)
Definition clip (v lo hi : Q) : Q :=
  if Np.Qlt_bool v lo then lo else if Np.Qlt_bool hi v then hi else v.

(** Pixel (x, y) exists and is below the background value. *)
Definition is_ink (img : Img.image) (x y : nat) : Prop :=
  y < length img /\ x < length (nth y img []) /\ (Img.getpixel img x y < 255)%Z.

(** What the ink branch makes of one resized pixel [p]: invert, divide
    by 255, boost by 1.2 and clip, each operation in float32. *)
Definition tone (p : Z) : Q :=
  clip (Np.f32 (Np.f32 (inject_Z (255 - p) / 255) * Np.f32 (12 # 10))) 0 1.

(** The margin in the words of the specification:
    round(0.20 * max(crop_width, crop_height)), to the nearest integer
    (a fifth of an integer is never half-way between two integers). *)
Definition spec_round_margin (w h : nat) : nat := (2 * Nat.max w h + 5) / 10.

End Normalizer.

(* ------------------------------------------------------------------ *)
(** ** The unified four-family tool ([hira_kata_kanji_kuzu.py]) *)

Module Unified.

(** The attributes of [JapaneseCharacterRecognizer] that carry state,
    with the widgets whose content the handlers set. *)
Record app := mk_app {
  current_mode : mode;
  current_labels : list label;
  current_language : language;
  canvas_size : nat;
  model_inputs : mode -> nat;
  line_width : Z;
  last_x : option Z;
  last_y : option Z;
  image : Img.image;
  strokes : list stroke;
  redo_stack : list stroke;
  mode_var : mode;
  lang_var : string;
  auto_var : bool;
  result_label : string;
  conf_bar : Z;
  mode_label : string;
  top_table : list (string * Q);
  dialogs : list dialog
}.

Definition set_current_mode (s : app) (v : mode) : app :=
  mk_app v (current_labels s) (current_language s) (canvas_size s)
    (model_inputs s) (line_width s) (last_x s) (last_y s) (image s)
    (strokes s) (redo_stack s) (mode_var s) (lang_var s) (auto_var s)
    (result_label s) (conf_bar s) (mode_label s) (top_table s) (dialogs s).

Definition set_current_labels (s : app) (v : list label) : app :=
  mk_app (current_mode s) v (current_language s) (canvas_size s)
    (model_inputs s) (line_width s) (last_x s) (last_y s) (image s)
    (strokes s) (redo_stack s) (mode_var s) (lang_var s) (auto_var s)
    (result_label s) (conf_bar s) (mode_label s) (top_table s) (dialogs s).

Definition set_current_language (s : app) (v : language) : app :=
  mk_app (current_mode s) (current_labels s) v (canvas_size s)
    (model_inputs s) (line_width s) (last_x s) (last_y s) (image s)
    (strokes s) (redo_stack s) (mode_var s) (lang_var s) (auto_var s)
    (result_label s) (conf_bar s) (mode_label s) (top_table s) (dialogs s).

Definition set_line_width (s : app) (v : Z) : app :=
  mk_app (current_mode s) (current_labels s) (current_language s)
    (canvas_size s) (model_inputs s) v (last_x s) (last_y s) (image s)
    (strokes s) (redo_stack s) (mode_var s) (lang_var s) (auto_var s)
    (result_label s) (conf_bar s) (mode_label s) (top_table s) (dialogs s).

Definition set_last_x (s : app) (v : option Z) : app :=
  mk_app (current_mode s) (current_labels s) (current_language s)
    (canvas_size s) (model_inputs s) (line_width s) v (last_y s) (image s)
    (strokes s) (redo_stack s) (mode_var s) (lang_var s) (auto_var s)
    (result_label s) (conf_bar s) (mode_label s) (top_table s) (dialogs s).

Definition set_last_y (s : app) (v : option Z) : app :=
  mk_app (current_mode s) (current_labels s) (current_language s)
    (canvas_size s) (model_inputs s) (line_width s) (last_x s) v (image s)
    (strokes s) (redo_stack s) (mode_var s) (lang_var s) (auto_var s)
    (result_label s) (conf_bar s) (mode_label s) (top_table s) (dialogs s).

Definition set_image (s : app) (v : Img.image) : app :=
  mk_app (current_mode s) (current_labels s) (current_language s)
    (canvas_size s) (model_inputs s) (line_width s) (last_x s) (last_y s) v
    (strokes s) (redo_stack s) (mode_var s) (lang_var s) (auto_var s)
    (result_label s) (conf_bar s) (mode_label s) (top_table s) (dialogs s).

Definition set_strokes (s : app) (v : list stroke) : app :=
  mk_app (current_mode s) (current_labels s) (current_language s)
    (canvas_size s) (model_inputs s) (line_width s) (last_x s) (last_y s)
    (image s) v (redo_stack s) (mode_var s) (lang_var s) (auto_var s)
    (result_label s) (conf_bar s) (mode_label s) (top_table s) (dialogs s).

Definition set_redo_stack (s : app) (v : list stroke) : app :=
  mk_app (current_mode s) (current_labels s) (current_language s)
    (canvas_size s) (model_inputs s) (line_width s) (last_x s) (last_y s)
    (image s) (strokes s) v (mode_var s) (lang_var s) (auto_var s)
    (result_label s) (conf_bar s) (mode_label s) (top_table s) (dialogs s).

Definition set_mode_var (s : app) (v : mode) : app :=
  mk_app (current_mode s) (current_labels s) (current_language s)
    (canvas_size s) (model_inputs s) (line_width s) (last_x s) (last_y s)
    (image s) (strokes s) (redo_stack s) v (lang_var s) (auto_var s)
    (result_label s) (conf_bar s) (mode_label s) (top_table s) (dialogs s).

Definition set_lang_var (s : app) (v : string) : app :=
  mk_app (current_mode s) (current_labels s) (current_language s)
    (canvas_size s) (model_inputs s) (line_width s) (last_x s) (last_y s)
    (image s) (strokes s) (redo_stack s) (mode_var s) v (auto_var s)
    (result_label s) (conf_bar s) (mode_label s) (top_table s) (dialogs s).

Definition set_auto_var (s : app) (v : bool) : app :=
  mk_app (current_mode s) (current_labels s) (current_language s)
    (canvas_size s) (model_inputs s) (line_width s) (last_x s) (last_y s)
    (image s) (strokes s) (redo_stack s) (mode_var s) (lang_var s) v
    (result_label s) (conf_bar s) (mode_label s) (top_table s) (dialogs s).

Definition set_result_label (s : app) (v : string) : app :=
  mk_app (current_mode s) (current_labels s) (current_language s)
    (canvas_size s) (model_inputs s) (line_width s) (last_x s) (last_y s)
    (image s) (strokes s) (redo_stack s) (mode_var s) (lang_var s)
    (auto_var s) v (conf_bar s) (mode_label s) (top_table s) (dialogs s).

Definition set_conf_bar (s : app) (v : Z) : app :=
  mk_app (current_mode s) (current_labels s) (current_language s)
    (canvas_size s) (model_inputs s) (line_width s) (last_x s) (last_y s)
    (image s) (strokes s) (redo_stack s) (mode_var s) (lang_var s)
    (auto_var s) (result_label s) v (mode_label s) (top_table s) (dialogs s).

Definition set_mode_label (s : app) (v : string) : app :=
  mk_app (current_mode s) (current_labels s) (current_language s)
    (canvas_size s) (model_inputs s) (line_width s) (last_x s) (last_y s)
    (image s) (strokes s) (redo_stack s) (mode_var s) (lang_var s)
    (auto_var s) (result_label s) (conf_bar s) v (top_table s) (dialogs s).

Definition set_top_table (s : app) (v : list (string * Q)) : app :=
  mk_app (current_mode s) (current_labels s) (current_language s)
    (canvas_size s) (model_inputs s) (line_width s) (last_x s) (last_y s)
    (image s) (strokes s) (redo_stack s) (mode_var s) (lang_var s)
    (auto_var s) (result_label s) (conf_bar s) (mode_label s) v (dialogs s).

Definition set_dialogs (s : app) (v : list dialog) : app :=
  mk_app (current_mode s) (current_labels s) (current_language s)
    (canvas_size s) (model_inputs s) (line_width s) (last_x s) (last_y s)
    (image s) (strokes s) (redo_stack s) (mode_var s) (lang_var s)
    (auto_var s) (result_label s) (conf_bar s) (mode_label s) (top_table s)
    v.

(** What a handler leaves behind: it returns, or it raises with the
    object in the state reached at the raise. *)
Inductive outcome :=
| Returned (s : app)
| Raised (e : exn) (s : app).

(** [l.pop()] *)
Definition pop {A} (l : list A) : option (A * list A) :=
  match rev l with
  | [] => None
  | x :: front => Some (x, rev front)
  end.

(** [strokes[-1].append(sg)]; [None] is the IndexError of [strokes[-1]]
    on an empty list. A stroke is held by one list at a time (undo and
    redo move it), so the in-place append shows in [strokes] only. *)
Definition append_to_last (ss : list stroke) (sg : segment) : option (list stroke) :=
  match rev ss with
  | [] => None
  | st :: front => Some (rev front ++ [st ++ [sg]])
  end.

Definition mode_name (m : mode) : string :=
  match m with
  | hiragana => "hiragana"
  | katakana => "katakana"
  | kanji => "kanji"
  | kuzushiji => "kuzushiji"
  end.

(** [self.current_mode.capitalize()] *)
Definition mode_name_capitalized (m : mode) : string :=
  match m with
  | hiragana => "Hiragana"
  | katakana => "Katakana"
  | kanji => "Kanji"
  | kuzushiji => "Kuzushiji"
  end.

(** [label[1] if self.current_language == "en" else label[0]] for a pair,
    the string itself otherwise. *)
Definition display (lang : language) (lbl : label) : string :=
  match lbl with
  | Plain str => str
  | Pair native translit => match lang with en => translit | jp => native end
  end.

(** [int(q)]: truncation toward zero. *)
Definition int (q : Q) : Z := Z.quot (Qnum q) (Zpos (Qden q)).

Section Handlers.
Context `{Collaborators}.

(** [__init__], after the models have loaded. *)
Definition init : app :=
  {| current_mode := hiragana;
     current_labels := hiragana_labels;
     current_language := en;
     canvas_size := 320;
     model_inputs := fun m =>
       match m with hiragana => 48 | katakana => 48 | kanji => 48 | kuzushiji => 28 end;
     line_width := 7;
     last_x := None;
     last_y := None;
     image := Img.Image_new 320 320 255;
     strokes := [];
     redo_stack := [];
     mode_var := hiragana;
     lang_var := "English";
     auto_var := true;
     result_label := "Please draw a character";
     conf_bar := 0;
     mode_label := "Current mode: Hiragana";
     top_table := [];
     dialogs := [] |}.

Definition _reset_results (s : app) : app :=
  let default_text :=
    match current_language s with
    | en => "Please draw a character"
    | jp => "文字を描いてください"
    end in
  let s := set_result_label s default_text in
  let s := set_conf_bar s 0 in
  set_top_table s [].

Definition change_language (s : app) : app :=
  let lang := lang_var s in
  let s := set_current_language s (if String.eqb lang "English" then en else jp) in
  let s :=
    match current_language s with
    | en =>
        let s := set_result_label s "Please draw a character" in
        set_mode_label s (String.append "Current mode: " (mode_name_capitalized (current_mode s)))
    | jp =>
        let s := set_result_label s "文字を描いてください" in
        set_mode_label s (String.append "現在のモード: " (mode_name (current_mode s)))
    end in
  _reset_results s.

Definition change_mode (s : app) : app :=
  let s := set_current_mode s (mode_var s) in
  let is_en := match current_language s with en => true | jp => false end in
  let s :=
    match current_mode s with
    | hiragana =>
        let s := set_current_labels s hiragana_labels in
        set_mode_label s (if is_en then "Current mode: Hiragana" else "現在のモード: ひらがな")
    | katakana =>
        let s := set_current_labels s katakana_labels in
        set_mode_label s (if is_en then "Current mode: Katakana" else "現在のモード: カタカナ")
    | kanji =>
        let s := set_current_labels s kanji_labels in
        set_mode_label s (if is_en then "Current mode: Kanji" else "現在のモード: 漢字")
    | kuzushiji =>
        let s := set_current_labels s kuzushiji_labels in
        set_mode_label s (if is_en then "Current mode: Kuzushiji" else "現在のモード: くずし字")
    end in
  _reset_results s.

(** [draw.line([x1, y1, x2, y2], fill=0, width=width)] on [self.image]. *)
Definition draw_segment (im : Img.image) (sg : segment) : Img.image :=
  let '(x1, y1, x2, y2, width) := sg in
  ImageDraw_line im (x1, y1, x2, y2) 0 width.

Definition _redraw_from_strokes (s : app) : app :=
  let s := set_image s (Img.Image_new (canvas_size s) (canvas_size s) 255) in
  fold_left
    (fun s stroke => fold_left (fun s sg => set_image s (draw_segment (image s) sg)) stroke s)
    (strokes s) s.

Definition _preprocess_for_model (s : app) : Np.ndarray :=
  let img := image s in
  let model_input := model_inputs s (current_mode s) in
  if negb (Np.any_lt255 img) then
    let base := Img.Image_new model_input model_input 255 in
    Np.map_data (fun v => Np.f32 (v / 255))%Q
      (Np.reshape (Np.array base) [1; model_input; model_input; 1])
  else
    let cropped := Normalizer.cropped img in
    let canvas := Normalizer.padded cropped in
    let square := Normalizer.squared canvas in
    let resized := Image_resize square model_input model_input LANCZOS in
    let inverted := Img.invert resized in
    let x := Np.map_data (fun v => Np.f32 (v / 255))%Q (Np.array inverted) in
    let x := Np.map_data
               (fun v => Normalizer.clip (Np.f32 (v * Np.f32 (12 # 10))) 0 1)%Q x in
    Np.reshape x [1; model_input; model_input; 1].

(** [messagebox.showerror("Error", f"Recognition failed:\n{str(e)}")] *)
Definition recognition_failed (s : app) (message : string) : app :=
  set_dialogs s
    (showerror "Error" (failure_text "Recognition failed" message) :: dialogs s).

(** The loop that fills the top-5 table; a label lookup out of range
    raises inside the [try] and leaves the rows inserted so far. *)
Fixpoint fill_top_table (s : app) (probs : list Q) (top_indices : list nat) : app :=
  match top_indices with
  | [] => s
  | i :: rest =>
      match nth_error (current_labels s) i with
      | None => recognition_failed s (label_error i)
      | Some lbl =>
          let row := (display (current_language s) lbl, nth i probs 0%Q) in
          fill_top_table (set_top_table s (top_table s ++ [row])) probs rest
      end
  end.

(** [top_indices = np.argsort(probs)[::-1][:5]] *)
Definition top_indices (probs : list Q) : list nat :=
  firstn 5 (rev (np_argsort probs)).

Definition recognize (s : app) : app :=
  if negb (Np.any_lt255 (image s)) then
    let text :=
      match current_language s with
      | en => "Please write a character"
      | jp => "文字を書いてください"
      end in
    set_dialogs s (showwarning "Warning" text :: dialogs s)
  else
    let x := _preprocess_for_model s in
    match model_predict (current_mode s) x with
    | None => recognition_failed s (predict_error (current_mode s) x)
    | Some probs =>
        match Np.argmax probs with
        | None => recognition_failed s Np.argmax_empty_message
        | Some predicted_index =>
            let confidence := nth predicted_index probs 0%Q in
            match nth_error (current_labels s) predicted_index with
            | None => recognition_failed s (label_error predicted_index)
            | Some lbl =>
                let s := set_result_label s (display (current_language s) lbl) in
                let s := set_conf_bar s (int (confidence * 100)) in
                let s := set_top_table s [] in
                fill_top_table s probs (top_indices probs)
            end
        end
    end.

(** [self.last_x, self.last_y = event.x, event.y] *)
Definition moved_to (s : app) (e : event) : app :=
  set_last_y (set_last_x s (Some (ev_x e))) (Some (ev_y e)).

Definition _start_stroke (s : app) (e : event) : app :=
  let s := moved_to s e in
  let s := set_strokes s (strokes s ++ [[]]) in
  set_redo_stack s [].

Definition _paint (s : app) (e : event) : outcome :=
  match last_x s, last_y s with
  | Some lx, Some ly =>
      let sg := (lx, ly, ev_x e, ev_y e, line_width s) in
      let s := set_image s (draw_segment (image s) sg) in
      match append_to_last (strokes s) sg with
      | None => Raised IndexError s
      | Some ss =>
          let s := set_strokes s ss in
          Returned (moved_to s e)
      end
  | _, _ => Returned (moved_to s e)
  end.

Definition _end_stroke (s : app) (e : event) : app :=
  let s := set_last_y (set_last_x s None) None in
  if auto_var s then recognize s else s.

(** [self.line_width = int(float(self.brush_scale.get()))] for the scale
    value [v]. *)
Definition _update_brush (s : app) (v : Q) : app := set_line_width s (int v).

Definition undo (s : app) : app :=
  match pop (strokes s) with
  | None => s
  | Some (stroke, rest) =>
      let s := set_strokes s rest in
      let s := set_redo_stack s (redo_stack s ++ [stroke]) in
      let s := _redraw_from_strokes s in
      _reset_results s
  end.

Definition redo (s : app) : app :=
  match pop (redo_stack s) with
  | None => s
  | Some (stroke, rest) =>
      let s := set_redo_stack s rest in
      let s := set_strokes s (strokes s ++ [stroke]) in
      let s := _redraw_from_strokes s in
      _reset_results s
  end.

Definition clear_canvas (s : app) : app :=
  let s := set_image s (Img.Image_new (canvas_size s) (canvas_size s) 255) in
  let s := set_strokes s [] in
  let s := set_redo_stack s [] in
  _reset_results s.

(** The bindings of the window: mouse on the canvas, keys and buttons,
    brush scale, radio buttons, language box, auto-recognise check. *)
Inductive input :=
| Button1 (e : event)
| B1Motion (e : event)
| ButtonRelease1 (e : event)
| Recognize
| Undo
| Redo
| Clear
| BrushScale (v : Q)
| SelectMode (m : mode)
| SelectLanguage (l : string)
| ToggleAuto.

Definition dispatch (s : app) (i : input) : outcome :=
  match i with
  | Button1 e => Returned (_start_stroke s e)
  | B1Motion e => _paint s e
  | ButtonRelease1 e => Returned (_end_stroke s e)
  | Recognize => Returned (recognize s)
  | Undo => Returned (undo s)
  | Redo => Returned (redo s)
  | Clear => Returned (clear_canvas s)
  | BrushScale v => Returned (_update_brush s v)
  | SelectMode m => Returned (change_mode (set_mode_var s m))
  | SelectLanguage l => Returned (change_language (set_lang_var s l))
  | ToggleAuto => Returned (set_auto_var s (negb (auto_var s)))
  end.

(** A session in which every handler returned; [None] as soon as one
    raises. *)
Fixpoint run (s : app) (inputs : list input) : option app :=
  match inputs with
  | [] => Some s
  | i :: rest =>
      match dispatch s i with
      | Returned s' => run s' rest
      | Raised _ _ => None
      end
  end.

(** The image a full replay of [ss] leaves on a blank canvas of side [n]:
    the loop of [_redraw_from_strokes], on the image alone. *)
Definition replay (n : nat) (ss : list stroke) : Img.image :=
  fold_left (fun im stroke => fold_left draw_segment stroke im) ss
            (Img.Image_new n n 255).

(** The canvas image is the cache it is meant to be: the replay of the
    committed strokes. *)
Definition in_sync (s : app) : Prop :=
  image s = replay (canvas_size s) (strokes s).

(** The drawing side of the application: everything but the result
    widgets. *)
Definition ink_state (s : app) :=
  (image s, strokes s, redo_stack s, canvas_size s, last_x s, last_y s,
   line_width s, auto_var s).

(** The three calls that build a stroke log. *)
Definition is_stroke_call (i : input) : bool :=
  match i with
  | Button1 _ | B1Motion _ | ButtonRelease1 _ => true
  | _ => false
  end.

(** Both of [last_x] and [last_y] are set. *)
Definition has_last (s : app) : bool :=
  match last_x s, last_y s with
  | Some _, Some _ => true
  | _, _ => false
  end.

(** On a window with no committed stroke: does a sequence of stroke calls
    reach an extend while a last position is recorded ([pos]) and nothing
    has been begun? *)
Fixpoint extends_before_begin (pos : bool) (inputs : list input) : bool :=
  match inputs with
  | [] => false
  | Button1 _ :: _ => false
  | B1Motion _ :: rest => if pos then true else extends_before_begin true rest
  | ButtonRelease1 _ :: rest => extends_before_begin false rest
  | _ :: rest => extends_before_begin pos rest
  end.

End Handlers.

End Unified.

(* ------------------------------------------------------------------ *)
(** ** The single-family hiragana tool ([hiragana_gui.py]) *)

Module HiraganaGui.

(** The text of the [result] label. *)
Inductive result_text :=
| Empty                                       (* "" *)
| Not_recognized                              (* "Not recognized as hiragana" *)
| Predicted (char : label) (confidence : Q).  (* f"Predicted: {char} ({confidence:.1%})" *)

Record app := mk_app {
  last_x : option Z;
  last_y : option Z;
  line_width : Z;
  drawing : Img.image;
  result : result_text;
  result_fg : string;
  instruction : string;
  dialogs : list dialog
}.

(** Truth value of [self.last_x] in [if self.last_x and self.last_y]:
    [None] and 0 are false. *)
Definition truthy (v : option Z) : bool :=
  match v with
  | None => false
  | Some z => negb (z =? 0)%Z
  end.

Section Handlers.
Context `{Collaborators}.

(** [setup_ui] *)
Definition init : app :=
  {| last_x := None;
     last_y := None;
     line_width := 20;
     drawing := Img.Image_new 300 300 255;
     result := Empty;
     result_fg := "blue";
     instruction := "Draw a hiragana character";
     dialogs := [] |}.

Definition paint (s : app) (e : event) : app :=
  let im :=
    match last_x s, last_y s with
    | Some lx, Some ly =>
        if truthy (last_x s) && truthy (last_y s)
        then ImageDraw_line (drawing s) (lx, ly, ev_x e, ev_y e) 0 (line_width s)
        else drawing s
    | _, _ => drawing s
    end in
  mk_app (Some (ev_x e)) (Some (ev_y e)) (line_width s) im
         (result s) (result_fg s) (instruction s) (dialogs s).

Definition reset (s : app) (e : event) : app :=
  mk_app None None (line_width s) (drawing s)
         (result s) (result_fg s) (instruction s) (dialogs s).

Definition clear (s : app) : app :=
  mk_app (last_x s) (last_y s) (line_width s) (Img.Image_new 300 300 255)
         Empty (result_fg s) "Draw a hiragana character" (dialogs s).

(** The "Preprocess image" and "Convert to numpy array" steps of
    [predict]. *)
Definition preprocess (drawing : Img.image) : Np.ndarray :=
  let img := Image_resize drawing 48 48 default_resample in
  let img := Img.invert img in
  let img_array := Np.map_data (fun v => v / 255)%Q (Np.array img) in
  Np.reshape img_array [1; 48; 48; 1].

Definition set_result (s : app) (text : result_text) (fg : string) : app :=
  mk_app (last_x s) (last_y s) (line_width s) (drawing s)
         text fg (instruction s) (dialogs s).

(** [messagebox.showerror("Error", f"Prediction failed:\n{str(e)}")] *)
Definition prediction_failed (s : app) (message : string) : app :=
  mk_app (last_x s) (last_y s) (line_width s) (drawing s)
         (result s) (result_fg s) (instruction s)
         (showerror "Error" (failure_text "Prediction failed" message) :: dialogs s).

(** [predict]; every exception raised in its body is caught and shown.
    The float32 confidence is compared with the literal 0.85: no float32
    lies between the literal (as a double, or rounded to float32) and
    17/20, so the test is the one on rationals. *)
Definition predict (s : app) : app :=
  let img_array := preprocess (drawing s) in
  match model_predict hiragana img_array with
  | None => prediction_failed s (predict_error hiragana img_array)
  | Some predictions =>
      match Np.argmax predictions, Np.max predictions with
      | Some predicted_idx, Some confidence =>
          if Np.Qlt_bool confidence (85 # 100) then
            set_result s Not_recognized "red"
          else
            match nth_error hiragana_labels predicted_idx with
            | None => prediction_failed s (label_error predicted_idx)
            | Some char => set_result s (Predicted char confidence) "green"
            end
      | _, _ => prediction_failed s Np.argmax_empty_message
      end
  end.

End Handlers.

End HiraganaGui.

(* ------------------------------------------------------------------ *)
(** ** The stable sort meets the contract of [np.argsort] *)

Section StableSort.
Variable p : list Q.

Local Abbreviation val i := (nth i p 0%Q).

Lemma Qlt_bool_iff (a b : Q) : Np.Qlt_bool a b = true <-> (a < b)%Q.
Proof.
  unfold Np.Qlt_bool. rewrite negb_true_iff. split.
  - intros Hf. apply Qnot_le_lt. intros Hle. apply Qle_bool_iff in Hle. congruence.
  - intros Hlt. destruct (Qle_bool b a) eqn:E; [| reflexivity].
    apply Qle_bool_iff in E. exfalso. now apply (Qlt_not_le a b).
Qed.

Lemma Qlt_bool_false_iff (a b : Q) : Np.Qlt_bool a b = false <-> (b <= a)%Q.
Proof.
  unfold Np.Qlt_bool. rewrite negb_false_iff. apply Qle_bool_iff.
Qed.

Lemma ranks_below_trans (a b c : nat) :
  Np.ranks_below p a b -> Np.ranks_below p b c -> Np.ranks_below p a c.
Proof.
  unfold Np.ranks_below. intros [Hab | [Eab Hab]] [Hbc | [Ebc Hbc]].
  - left. now apply Qlt_trans with (val b).
  - left. now rewrite <- Ebc.
  - left. now rewrite Eab.
  - right. split; [now rewrite Eab | lia].
Qed.

Lemma ranks_below_irrefl (a : nat) : ~ Np.ranks_below p a a.
Proof.
  intros [Hlt | [_ Hlt]]; [exact (Qlt_irrefl _ Hlt) | lia].
Qed.

Lemma ranks_below_le (a b : nat) :
  Np.ranks_below p a b -> (nth a p 0 <= nth b p 0)%Q.
Proof.
  intros [Hlt | [Heq _]]; [now apply Qlt_le_weak | rewrite Heq; apply Qle_refl].
Qed.

Lemma StronglySorted_weaken {A} (R R' : A -> A -> Prop) (l : list A) :
  (forall a b, R a b -> R' a b) -> StronglySorted R l -> StronglySorted R' l.
Proof.
  intros Himp. induction 1 as [| a l Hs IH Ha]; constructor; [exact IH |].
  rewrite Forall_forall in *. auto.
Qed.

Lemma StronglySorted_NoDup {A} (R : A -> A -> Prop) (l : list A) :
  (forall a, ~ R a a) -> StronglySorted R l -> NoDup l.
Proof.
  intros Hirr. induction 1 as [| a l Hs IH Ha]; constructor; [| exact IH].
  intros Hin. rewrite Forall_forall in Ha. exact (Hirr a (Ha a Hin)).
Qed.

Lemma in_insert_idx (i x : nat) (l : list nat) :
  In x (Np.insert_idx p i l) <-> x = i \/ In x l.
Proof.
  induction l as [| j l IH]; cbn [Np.insert_idx].
  - cbn. intuition.
  - destruct (Qle_bool (val i) (val j)); cbn [In]; [intuition |].
    rewrite IH. intuition.
Qed.

Lemma insert_idx_sorted (i : nat) (l : list nat) :
  StronglySorted (Np.ranks_below p) l -> (forall x, In x l -> i < x) ->
  StronglySorted (Np.ranks_below p) (Np.insert_idx p i l).
Proof.
  intros Hs. induction Hs as [| j l Hs IH Hj]; intros Hlt; cbn [Np.insert_idx].
  - repeat constructor.
  - rewrite Forall_forall in Hj.
    destruct (Qle_bool (val i) (val j)) eqn:E.
    + apply Qle_bool_iff in E.
      assert (Hij : Np.ranks_below p i j).
      { apply Qle_lteq in E as [E | E]; [now left | right].
        split; [exact E | apply Hlt; now left]. }
      constructor; [now constructor; [| apply Forall_forall] |].
      constructor; [exact Hij |]. apply Forall_forall. intros x Hx.
      apply ranks_below_trans with j; [exact Hij | now apply Hj].
    + constructor.
      * apply IH. intros x Hx. apply Hlt. now right.
      * apply Forall_forall. intros x Hx. apply in_insert_idx in Hx as [-> | Hx].
        -- left. apply Qlt_bool_iff. unfold Np.Qlt_bool. now rewrite E.
        -- now apply Hj.
Qed.

Lemma argsort_from_spec (a n : nat) :
  let l := fold_right (Np.insert_idx p) [] (seq a n) in
  StronglySorted (Np.ranks_below p) l /\ forall x, In x l <-> a <= x < a + n.
Proof.
  revert a. induction n as [| n IH]; intros a; cbn [seq fold_right].
  - split; [constructor | intros x; cbn; lia].
  - destruct (IH (S a)) as (Hs & Hin). cbn zeta in *. split.
    + apply insert_idx_sorted; [exact Hs |]. intros x Hx. apply Hin in Hx. lia.
    + intros x. rewrite in_insert_idx, Hin. lia.
Qed.

Lemma stable_argsort_indices (x : nat) : In x (Np.argsort p) <-> x < length p.
Proof.
  destruct (argsort_from_spec 0 (length p)) as (_ & Hin). cbn zeta in Hin.
  fold (Np.argsort p) in Hin. rewrite Hin. lia.
Qed.

Lemma stable_argsort_ranked : StronglySorted (Np.ranks_below p) (Np.argsort p).
Proof. apply (argsort_from_spec 0 (length p)). Qed.

Lemma stable_argsort_nodup : NoDup (Np.argsort p).
Proof.
  apply (StronglySorted_NoDup (Np.ranks_below p)); [| apply stable_argsort_ranked].
  intros a. apply ranks_below_irrefl.
Qed.

Lemma stable_argsort_sorted :
  StronglySorted (fun a b => nth a p 0 <= nth b p 0)%Q (Np.argsort p).
Proof.
  eapply StronglySorted_weaken; [| apply stable_argsort_ranked].
  cbv beta. intros a b. apply ranks_below_le.
Qed.

End StableSort.

(* ------------------------------------------------------------------ *)
(** ** A concrete set of collaborators

    Used to run the handlers on concrete sessions: a brush that inks the
    two end points of a segment, a nearest-neighbour resampler, and a
    ten-class classifier (the size of the Kuzushiji-MNIST vocabulary)
    that answers with a fixed distribution whose two largest entries are
    equal. *)

Module Sample.

Definition set_pixel (im : Img.image) (x y : Z) (v : Z) : Img.image :=
  Img.mk_image (Img.width im) (Img.height im) (fun px py =>
    if (Z.of_nat px =? x)%Z && (Z.of_nat py =? y)%Z then v else Img.getpixel im px py).

Definition draw_end_points (im : Img.image) (xy : Z * Z * Z * Z) (fill width : Z) : Img.image :=
  let '(x1, y1, x2, y2) := xy in
  set_pixel (set_pixel im x1 y1 fill) x2 y2 fill.

Definition resize_nearest (im : Img.image) (w h : nat) (_ : resample) : Img.image :=
  Img.mk_image w h (fun x y =>
    Img.getpixel im (x * Img.width im / w) (y * Img.height im / h)).

Definition tied_probs : list Q :=
  [1 # 2; 1 # 2; 0; 0; 0; 0; 0; 0; 0; 0]%Q.

Definition ten_labels : list label :=
  [Pair "お" "o"; Pair "き" "ki"; Pair "す" "su"; Pair "つ" "tsu"; Pair "な" "na";
   Pair "は" "ha"; Pair "ま" "ma"; Pair "や" "ya"; Pair "れ" "re"; Pair "を" "wo"].

(** A distribution without ties: classes 1, 3, 5, 0, 6 lead, in that
    order. *)
Definition distinct_probs : list Q :=
  [5 # 100; 60 # 100; 1 # 100; 20 # 100; 2 # 100;
   8 # 100; 3 # 100; 5 # 1000; 4 # 1000; 1 # 1000]%Q.

(** The hiragana classifier answers with the tied distribution, the
    others with the one without ties; the sort is the stable one; a label
    table is a Python list. *)
Definition collaborators : Collaborators :=
  {| ImageDraw_line := draw_end_points;
     Image_resize := resize_nearest;
     model_predict := fun m _ =>
       match m with
       | hiragana => Some tied_probs
       | _ => Some distinct_probs
       end;
     predict_error := fun _ _ => "";
     hiragana_labels := ten_labels;
     katakana_labels := ten_labels;
     kanji_labels := ten_labels;
     kuzushiji_labels := ten_labels;
     label_error := fun _ => "list index out of range";
     np_argsort := Np.argsort;
     np_argsort_indices := stable_argsort_indices;
     np_argsort_nodup := stable_argsort_nodup;
     np_argsort_sorted := stable_argsort_sorted |}.

(** A 320 x 320 canvas with one horizontal bar of ink, 98 pixels wide
    and 7 high, as a 7-pixel brush leaves it. *)
Definition bar_canvas : Img.image :=
  Img.mk_image 320 320 (fun x y =>
    if (100 <=? x) && (x <? 198) && (150 <=? y) && (y <? 157) then 0%Z else 255%Z).

Definition at_xy (x y : Z) : event := {| ev_x := x; ev_y := y |}.

(** Press at (40, 40), drag to (50, 40), release. *)
Definition one_stroke : list Unified.input :=
  [Unified.Button1 (at_xy 40 40); Unified.B1Motion (at_xy 50 40);
   Unified.ButtonRelease1 (at_xy 50 40)].

End Sample.

(* ------------------------------------------------------------------ *)
(** ** Whole gestures on the canvas of the unified tool *)

Module Gesture.

(** The segments a drag leaves behind: from the press position through
    the positions of the motion events, all with one brush width. *)
Fixpoint chain (x y : Z) (ps : list event) (w : Z) : stroke :=
  match ps with
  | [] => []
  | e :: rest => (x, y, ev_x e, ev_y e, w) :: chain (ev_x e) (ev_y e) rest w
  end.

(** Each segment starts where the one before it ends. *)
Fixpoint contiguous (st : stroke) : Prop :=
  match st with
  | (_, _, x2, y2, _) :: rest =>
      match rest with
      | (x1, y1, _, _, _) :: _ => x2 = x1 /\ y2 = y1
      | [] => True
      end /\ contiguous rest
  | [] => True
  end.

(** Press at [p0], move through [ps], release at [q]. *)
Definition drag (p0 : event) (ps : list event) (q : event) : list Unified.input :=
  Unified.Button1 p0 :: map Unified.B1Motion ps ++ [Unified.ButtonRelease1 q].

(** The row the top-5 table shows for class [i]. *)
Definition row (lang : language) (labels : list label) (probs : list Q) (i : nat)
  : string * Q :=
  (Unified.display lang (nth i labels (Plain "")), nth i probs 0%Q).

End Gesture.

(* ------------------------------------------------------------------ *)
(** ** Canvases as a user sees them *)

Module Canvas.

(** Every row has the width of the first. *)
Definition rectangular (img : Img.image) : bool :=
  forallb (fun row => length row =? Img.width img) img.

(** The same drawing [dx] pixels further right and [dy] further down, on
    a canvas of the same size; what leaves the canvas is lost and what
    enters is background. *)
Definition moved (img : Img.image) (dx dy : nat) : Img.image :=
  Img.mk_image (Img.width img) (Img.height img) (fun x y =>
    if (dx <=? x) && (dy <=? y) then Img.getpixel img (x - dx) (y - dy) else 255%Z).

End Canvas.

(* ------------------------------------------------------------------ *)
(** ** The two-family tool ([katakana_gui.py]) *)

Module KatakanaGui.

(** Text of [result_label]: the prompt or the predicted label. *)
Inductive result_text :=
| Draw_a_character                 (* "Draw a character" *)
| Shown (l : label).               (* self.current_labels[predicted_index] *)

(** Text of [confidence_label]. *)
Inductive confidence_text :=
| No_confidence                    (* "Confidence: -" *)
| Confidence (q : Q).              (* f"Confidence: {confidence:.2%}" *)

(** Text of [top_predictions_label]: the placeholder or one line per
    class, "label: probability". *)
Inductive predictions_text :=
| Will_appear_here                 (* "Top predictions will appear here" *)
| Lines (rows : list (label * Q)).

Record app := mk_app {
  current_mode : mode;
  current_labels : list label;
  last_x : option Z;
  last_y : option Z;
  line_width : Z;
  image : Img.image;
  mode_var : mode;
  result_label : result_text;
  confidence_label : confidence_text;
  mode_label : string;
  top_predictions_label : predictions_text;
  dialogs : list dialog
}.

Section Handlers.
Context `{Collaborators}.

(** [__init__] with [setup_ui]. *)
Definition init : app :=
  {| current_mode := hiragana;
     current_labels := hiragana_labels;
     last_x := None;
     last_y := None;
     line_width := 15;
     image := Img.Image_new 300 300 255;
     mode_var := hiragana;
     result_label := Draw_a_character;
     confidence_label := No_confidence;
     mode_label := "Current mode: Hiragana";
     top_predictions_label := Will_appear_here;
     dialogs := [] |}.

Definition clear_canvas (s : app) : app :=
  mk_app (current_mode s) (current_labels s) (last_x s) (last_y s) (line_width s)
         (Img.Image_new 300 300 255) (mode_var s)
         Draw_a_character No_confidence (mode_label s) Will_appear_here (dialogs s).

(** The comparison is with "hiragana"; every other value takes the
    [else] branch. *)
Definition change_mode (s : app) : app :=
  let m := mode_var s in
  let '(labels, caption) :=
    match m with
    | hiragana => (hiragana_labels, "Current mode: Hiragana")
    | _ => (katakana_labels, "Current mode: Katakana")
    end in
  clear_canvas
    (mk_app m labels (last_x s) (last_y s) (line_width s) (image s) (mode_var s)
            (result_label s) (confidence_label s) caption
            (top_predictions_label s) (dialogs s)).

Definition paint (s : app) (e : event) : app :=
  let im :=
    match last_x s, last_y s with
    | Some lx, Some ly =>
        if HiraganaGui.truthy (last_x s) && HiraganaGui.truthy (last_y s)
        then ImageDraw_line (image s) (lx, ly, ev_x e, ev_y e) 0 (line_width s)
        else image s
    | _, _ => image s
    end in
  mk_app (current_mode s) (current_labels s) (Some (ev_x e)) (Some (ev_y e))
         (line_width s) im (mode_var s) (result_label s) (confidence_label s)
         (mode_label s) (top_predictions_label s) (dialogs s).

Definition reset (s : app) (e : event) : app :=
  mk_app (current_mode s) (current_labels s) None None
         (line_width s) (image s) (mode_var s) (result_label s) (confidence_label s)
         (mode_label s) (top_predictions_label s) (dialogs s).

(** The image handed to the classifier. *)
Definition preprocess (image : Img.image) : Np.ndarray :=
  let img := Image_resize image 48 48 default_resample in
  let img := Img.invert img in
  let img_array := Np.map_data (fun v => v / 255)%Q (Np.array img) in
  Np.reshape img_array [1; 48; 48; 1].

(** [messagebox.showerror("Error", f"Recognition failed:\n{str(e)}")] *)
Definition recognition_failed (s : app) (message : string) : app :=
  mk_app (current_mode s) (current_labels s) (last_x s) (last_y s) (line_width s)
         (image s) (mode_var s) (result_label s) (confidence_label s)
         (mode_label s) (top_predictions_label s)
         (showerror "Error" (failure_text "Recognition failed" message) :: dialogs s).

Definition set_result (s : app) (r : result_text) (c : confidence_text) : app :=
  mk_app (current_mode s) (current_labels s) (last_x s) (last_y s) (line_width s)
         (image s) (mode_var s) r c
         (mode_label s) (top_predictions_label s) (dialogs s).

Definition set_top_predictions (s : app) (t : predictions_text) : app :=
  mk_app (current_mode s) (current_labels s) (last_x s) (last_y s) (line_width s)
         (image s) (mode_var s) (result_label s) (confidence_label s)
         (mode_label s) t (dialogs s).

(** The list comprehension of the top-5 text: every label is looked up,
    in order, before the widget is touched; [inr i] is the first index
    whose lookup raises. *)
Fixpoint top_rows (labels : list label) (probs : list Q) (idx : list nat)
  : list (label * Q) + nat :=
  match idx with
  | [] => inl []
  | i :: rest =>
      match nth_error labels i with
      | None => inr i
      | Some l =>
          match top_rows labels probs rest with
          | inl rows => inl ((l, nth i probs 0%Q) :: rows)
          | inr j => inr j
          end
      end
  end.

Definition recognize (s : app) : app :=
  let img_array := preprocess (image s) in
  let family :=
    match current_mode s with
    | hiragana => hiragana
    | _ => katakana
    end in
  match model_predict family img_array with
  | None => recognition_failed s (predict_error family img_array)
  | Some probs =>
      match Np.argmax probs with
      | None => recognition_failed s Np.argmax_empty_message
      | Some predicted_index =>
          let confidence := nth predicted_index probs 0%Q in
          match nth_error (current_labels s) predicted_index with
          | None => recognition_failed s (label_error predicted_index)
          | Some l =>
              let s := set_result s (Shown l) (Confidence confidence) in
              let top_indices := firstn 5 (rev (np_argsort probs)) in
              match top_rows (current_labels s) probs top_indices with
              | inr i => recognition_failed s (label_error i)
              | inl rows => set_top_predictions s (Lines rows)
              end
          end
      end
  end.

End Handlers.

End KatakanaGui.

(* ================================================================== *)
(** * Properties *)

Import Unified.

(** ** Lists used as stacks *)

Lemma pop_app_last {A} (l : list A) (x : A) : pop (l ++ [x]) = Some (x, l).
Proof.
  unfold pop. rewrite rev_app_distr. simpl. now rewrite rev_involutive.
Qed.

Lemma pop_nil_iff {A} (l : list A) : pop l = None <-> l = [].
Proof.
  unfold pop. split.
  - intros Hp. destruct (rev l) eqn:E; [| destruct l; discriminate].
    apply (f_equal (@rev A)) in E. now rewrite rev_involutive in E.
  - intros ->. reflexivity.
Qed.

Lemma nonempty_snoc {A} (l : list A) : l <> [] -> exists front x, l = front ++ [x].
Proof.
  intros Hne. destruct (rev l) as [| x front] eqn:E.
  - apply (f_equal (@rev A)) in E. rewrite rev_involutive in E. contradiction.
  - exists (rev front), x. apply (f_equal (@rev A)) in E.
    now rewrite rev_involutive in E.
Qed.

Lemma append_to_last_snoc (front : list stroke) (st : stroke) (sg : segment) :
  append_to_last (front ++ [st]) sg = Some (front ++ [st ++ [sg]]).
Proof.
  unfold append_to_last. rewrite rev_app_distr. simpl. now rewrite rev_involutive.
Qed.

Lemma append_to_last_nil_iff (ss : list stroke) (sg : segment) :
  append_to_last ss sg = None <-> ss = [].
Proof.
  split.
  - intros Hn. destruct ss as [| a ss']; [reflexivity |].
    destruct (nonempty_snoc (a :: ss')) as (front & st & E); [discriminate |].
    rewrite E, append_to_last_snoc in Hn. discriminate.
  - intros ->. reflexivity.
Qed.

(** ** The stroke log of the unified tool *)

Section StrokeLog.
Context `{Collaborators}.

Lemma set_image_image (s : app) : set_image s (image s) = s.
Proof. now destruct s. Qed.

Lemma set_image_twice (s : app) (a b : Img.image) :
  set_image (set_image s a) b = set_image s b.
Proof. reflexivity. Qed.

Lemma fold_draw_stroke (st : stroke) (s0 : app) :
  fold_left (fun s sg => set_image s (draw_segment (image s) sg)) st s0
  = set_image s0 (fold_left draw_segment st (image s0)).
Proof.
  revert s0. induction st as [| sg st IH]; intros s0; simpl.
  - symmetry. apply set_image_image.
  - rewrite IH. reflexivity.
Qed.

Lemma fold_draw_strokes (ss : list stroke) (s0 : app) :
  fold_left
    (fun s stroke => fold_left (fun s sg => set_image s (draw_segment (image s) sg)) stroke s)
    ss s0
  = set_image s0 (fold_left (fun im st => fold_left draw_segment st im) ss (image s0)).
Proof.
  revert s0. induction ss as [| st ss IH]; intros s0; simpl.
  - symmetry. apply set_image_image.
  - rewrite fold_draw_stroke, IH. reflexivity.
Qed.

(** [_redraw_from_strokes] touches the image only, and leaves there the
    replay of the committed strokes. *)
Lemma redraw_is_replay (s : app) :
  _redraw_from_strokes s = set_image s (replay (canvas_size s) (strokes s)).
Proof.
  unfold _redraw_from_strokes, replay. rewrite fold_draw_strokes. reflexivity.
Qed.

Lemma replay_snoc_stroke (n : nat) (ss : list stroke) (st : stroke) :
  replay n (ss ++ [st]) = fold_left draw_segment st (replay n ss).
Proof. unfold replay. rewrite fold_left_app. reflexivity. Qed.

Lemma replay_extend_last (n : nat) (front : list stroke) (st : stroke) (sg : segment) :
  replay n (front ++ [st ++ [sg]]) = draw_segment (replay n (front ++ [st])) sg.
Proof. rewrite !replay_snoc_stroke, fold_left_app. reflexivity. Qed.

(** C5. Undo/redo inverse law: on a log whose committed sequence is not
    empty, [undo] moves the last committed stroke to the end of the redo
    buffer, and [redo] right after moves it back: both sequences are then
    exactly what they were before the undo. *)
Theorem undo_then_redo_restores (s : app) :
  strokes s <> [] ->
  (exists front st,
      strokes s = front ++ [st]
      /\ strokes (undo s) = front
      /\ redo_stack (undo s) = redo_stack s ++ [st])
  /\ strokes (redo (undo s)) = strokes s
  /\ redo_stack (redo (undo s)) = redo_stack s.
Proof.
  intros Hne. destruct (nonempty_snoc _ Hne) as (front & st & E).
  assert (Hu : undo s
               = _reset_results
                   (_redraw_from_strokes
                      (set_redo_stack (set_strokes s front) (redo_stack s ++ [st])))).
  { unfold undo. rewrite E, pop_app_last. reflexivity. }
  split.
  - exists front, st. rewrite Hu, redraw_is_replay. auto.
  - unfold redo. rewrite Hu, redraw_is_replay. cbn [redo_stack _reset_results
      set_top_table set_conf_bar set_result_label set_image set_redo_stack set_strokes].
    rewrite pop_app_last, !redraw_is_replay. cbn. rewrite E. auto.
Qed.

(** C6. Redo invalidation: beginning a stroke empties the redo buffer,
    whatever undos came before, so a [redo] issued next returns at its
    guard and changes nothing, neither sequence nor anything else. *)
Theorem start_stroke_invalidates_redo (s : app) (undos : nat) (e : event) :
  let s' := _start_stroke (Nat.iter undos undo s) e in
  redo_stack s' = []
  /\ redo s' = s'
  /\ strokes (redo s') = strokes (Nat.iter undos undo s) ++ [[]].
Proof.
  cbn zeta. assert (Hr : redo (_start_stroke (Nat.iter undos undo s) e)
                         = _start_stroke (Nat.iter undos undo s) e) by reflexivity.
  rewrite Hr. repeat split; reflexivity.
Qed.

(** *** What recognition leaves alone *)

Lemma fill_top_table_ink (probs : list Q) (idx : list nat) (s : app) :
  ink_state (fill_top_table s probs idx) = ink_state s.
Proof.
  revert s. induction idx as [| i idx IH]; intros s; simpl; [reflexivity |].
  destruct (nth_error (current_labels s) i); [rewrite IH |]; reflexivity.
Qed.

Lemma recognize_ink (s : app) : ink_state (recognize s) = ink_state s.
Proof.
  unfold recognize.
  destruct (negb (Np.any_lt255 (image s))); [reflexivity |].
  destruct (model_predict _ _) as [probs |]; [| reflexivity].
  destruct (Np.argmax probs) as [i |]; [| reflexivity].
  destruct (nth_error (current_labels s) i); [| reflexivity].
  rewrite fill_top_table_ink. reflexivity.
Qed.

Lemma ink_state_fields (s s' : app) :
  ink_state s' = ink_state s ->
  image s' = image s /\ strokes s' = strokes s /\ redo_stack s' = redo_stack s
  /\ canvas_size s' = canvas_size s /\ last_x s' = last_x s /\ last_y s' = last_y s.
Proof. unfold ink_state. intros [= -> -> -> -> -> -> _ _]. auto 7. Qed.

Lemma end_stroke_ink (s : app) (e : event) :
  ink_state (_end_stroke s e)
  = (image s, strokes s, redo_stack s, canvas_size s, None, None,
     line_width s, auto_var s).
Proof.
  unfold _end_stroke. cbn [auto_var set_last_x set_last_y].
  destruct (auto_var s) eqn:Ea; [rewrite recognize_ink |];
    unfold ink_state; cbn; now rewrite ?Ea.
Qed.

(** *** The handler [_paint] *)

Lemma paint_no_last (s : app) (e : event) :
  last_x s = None \/ last_y s = None -> _paint s e = Returned (moved_to s e).
Proof.
  unfold _paint, moved_to. intros [E | E]; rewrite E; [| destruct (last_x s)]; reflexivity.
Qed.

Lemma paint_last_snoc (s : app) (e : event) (lx ly : Z) (front : list stroke) (st : stroke) :
  last_x s = Some lx -> last_y s = Some ly -> strokes s = front ++ [st] ->
  let sg := (lx, ly, ev_x e, ev_y e, line_width s) in
  _paint s e
  = Returned (moved_to (set_strokes (set_image s (draw_segment (image s) sg))
                                    (front ++ [st ++ [sg]])) e).
Proof.
  intros Ex Ey Es. unfold _paint. rewrite Ex, Ey.
  cbn [strokes set_image]. rewrite Es, append_to_last_snoc. reflexivity.
Qed.

Lemma paint_last_empty (s : app) (e : event) (lx ly : Z) :
  last_x s = Some lx -> last_y s = Some ly -> strokes s = [] ->
  _paint s e
  = Raised IndexError
      (set_image s (draw_segment (image s) (lx, ly, ev_x e, ev_y e, line_width s))).
Proof.
  intros Ex Ey Es. unfold _paint. rewrite Ex, Ey.
  cbn [strokes set_image]. rewrite Es. reflexivity.
Qed.

Lemma end_stroke_closes (s : app) (e : event) :
  last_x (_end_stroke s e) = None /\ last_y (_end_stroke s e) = None
  /\ strokes (_end_stroke s e) = strokes s /\ image (_end_stroke s e) = image s.
Proof.
  pose proof (end_stroke_ink s e) as E. unfold ink_state in E.
  injection E as -> -> _ _ -> -> _ _. auto.
Qed.

(** C7 (amended). Extending while no stroke is open, that is while no
    last pointer position is recorded (before any begin-stroke, or after
    the stroke was ended), does not fail: [_paint] records the position of
    the event and returns, with the image and the committed strokes as
    they were. *)
Theorem paint_without_open_stroke_returns (s : app) (e : event) :
  last_x s = None \/ last_y s = None ->
  _paint s e = Returned (moved_to s e)
  /\ image (moved_to s e) = image s
  /\ strokes (moved_to s e) = strokes s
  /\ last_x (moved_to s e) = Some (ev_x e)
  /\ last_y (moved_to s e) = Some (ev_y e).
Proof.
  intros Hnone. split; [now apply paint_no_last |]. repeat split.
Qed.

(** C8. [_paint] returns exactly when no last position is recorded or the
    committed list is not empty. With no last position it records the
    event position and returns, drawing and appending nothing; with one
    recorded and an empty list, [strokes[-1]] raises IndexError (the line
    is already on the image). [clear_canvas] empties the list and keeps
    [last_x]/[last_y], so a clear in the middle of a stroke makes the
    next [_paint] raise. *)
Theorem paint_total_only_with_a_stroke (s : app) (e : event) :
  ((last_x s = None \/ last_y s = None) ->
     _paint s e = Returned (moved_to s e)
     /\ image (moved_to s e) = image s /\ strokes (moved_to s e) = strokes s)
  /\ (forall lx ly, last_x s = Some lx -> last_y s = Some ly ->
        (strokes s = [] <-> exists s', _paint s e = Raised IndexError s')
        /\ (strokes s <> [] <-> exists s', _paint s e = Returned s'))
  /\ (last_x (clear_canvas s) = last_x s
      /\ last_y (clear_canvas s) = last_y s
      /\ strokes (clear_canvas s) = [])
  /\ (forall e0, exists s',
        _paint (clear_canvas (_start_stroke s e0)) e = Raised IndexError s').
Proof.
  split; [| split; [| split]].
  - intros Hnone. split; [now apply paint_no_last | split; reflexivity].
  - intros lx ly Ex Ey.
    destruct (strokes s) as [| a ss] eqn:Es.
    + rewrite (paint_last_empty s e lx ly Ex Ey Es). split; split.
      * intros _. eexists. reflexivity.
      * reflexivity.
      * intros Hne. now contradiction Hne.
      * intros [s' Hs']. discriminate.
    + destruct (nonempty_snoc (a :: ss)) as (front & st & E); [discriminate |].
      rewrite E in Es. rewrite (paint_last_snoc s e lx ly front st Ex Ey Es).
      split; split.
      * discriminate.
      * intros [s' Hs']. discriminate.
      * intros _. eexists. reflexivity.
      * intros _. discriminate.
  - repeat split.
  - intros e0. eexists. apply paint_last_empty with (lx := ev_x e0) (ly := ev_y e0);
      reflexivity.
Qed.


(** *** Incremental drawing against full replay *)

Lemma in_sync_redraw (s : app) : in_sync s <-> _redraw_from_strokes s = s.
Proof.
  unfold in_sync. rewrite redraw_is_replay. split.
  - intros <-. apply set_image_image.
  - intros E. apply (f_equal image) in E. now symmetry.
Qed.

Lemma in_sync_ink (s s' : app) : ink_state s' = ink_state s -> in_sync s -> in_sync s'.
Proof.
  intros E. apply ink_state_fields in E as (Ei & Es & _ & Ec & _).
  unfold in_sync. now rewrite Ei, Es, Ec.
Qed.

Lemma in_sync_init : in_sync init.
Proof. reflexivity. Qed.

Lemma in_sync_paint (s s' : app) (e : event) :
  _paint s e = Returned s' -> in_sync s -> in_sync s'.
Proof.
  intros Hp Hs.
  destruct (last_x s) as [lx |] eqn:Ex; [destruct (last_y s) as [ly |] eqn:Ey |].
  - destruct (strokes s) as [| a ss] eqn:Es.
    + rewrite (paint_last_empty s e lx ly Ex Ey Es) in Hp. discriminate.
    + destruct (nonempty_snoc (a :: ss)) as (front & st & E); [discriminate |].
      rewrite E in Es. rewrite (paint_last_snoc s e lx ly front st Ex Ey Es) in Hp.
      injection Hp as <-. unfold in_sync in *.
      cbn [image strokes canvas_size moved_to set_last_x set_last_y set_strokes set_image].
      rewrite replay_extend_last, <- Es, <- Hs. reflexivity.
  - rewrite paint_no_last in Hp by now right. now injection Hp as <-.
  - rewrite paint_no_last in Hp by now left. now injection Hp as <-.
Qed.

Lemma in_sync_after_redraw (s : app) : in_sync (_reset_results (_redraw_from_strokes s)).
Proof. rewrite redraw_is_replay. reflexivity. Qed.

(** Every handler that returns keeps the image equal to the replay of the
    committed strokes. *)
Lemma in_sync_dispatch (s s' : app) (i : input) :
  dispatch s i = Returned s' -> in_sync s -> in_sync s'.
Proof.
  destruct i; cbn [dispatch]; intros Hd Hs; try (injection Hd as <-).
  - unfold in_sync in *.
    cbn [_start_stroke image strokes canvas_size moved_to set_last_x set_last_y
         set_strokes set_redo_stack].
    rewrite replay_snoc_stroke. exact Hs.
  - eapply in_sync_paint; eauto.
  - destruct (end_stroke_closes s e) as (_ & _ & Es & Ei).
    pose proof (end_stroke_ink s e) as Ek. unfold ink_state in Ek.
    injection Ek as _ _ _ Ec _ _ _ _.
    unfold in_sync in *. now rewrite Ei, Es, Ec.
  - eapply in_sync_ink; [apply recognize_ink | exact Hs].
  - unfold undo. destruct (pop (strokes s)) as [[st rest] |]; [| exact Hs].
    apply in_sync_after_redraw.
  - unfold redo. destruct (pop (redo_stack s)) as [[st rest] |]; [| exact Hs].
    apply in_sync_after_redraw.
  - reflexivity.
  - exact Hs.
  - destruct s as [cm cl lg cs mi lw lx ly im ss rs mv lv av rl cb ml tt dg].
    destruct m, lg; exact Hs.
  - destruct s as [cm cl lg cs mi lw lx ly im ss rs mv lv av rl cb ml tt dg].
    unfold in_sync in *. cbn in *. destruct (String.eqb l "English"); exact Hs.
  - exact Hs.
Qed.

Lemma in_sync_run (inputs : list input) (s s' : app) :
  run s inputs = Some s' -> in_sync s -> in_sync s'.
Proof.
  revert s. induction inputs as [| i rest IH]; intros s; cbn [run].
  - now intros [= <-].
  - destruct (dispatch s i) as [s1 | ex s1] eqn:Ed; [| discriminate].
    intros Hr Hs. apply (IH s1 Hr). eapply in_sync_dispatch; eauto.
Qed.

(** Once a stroke has been begun the committed list is never empty again
    under begin/extend/end calls, so none of them raises. *)
Lemma stroke_calls_never_raise (inputs : list input) (s : app) :
  forallb is_stroke_call inputs = true -> strokes s <> [] ->
  exists s', run s inputs = Some s'.
Proof.
  revert s. induction inputs as [| i rest IH]; intros s Hall Hne; cbn [run].
  - eexists. reflexivity.
  - cbn [forallb] in Hall. apply andb_prop in Hall as [Hi Hrest].
    destruct i; try discriminate Hi; cbn [dispatch].
    + apply IH; [exact Hrest |]. cbn. now destruct (strokes s).
    + destruct (nonempty_snoc _ Hne) as (front & st & Es).
      destruct (last_x s) as [lx |] eqn:Ex; [destruct (last_y s) as [ly |] eqn:Ey |].
      * rewrite (paint_last_snoc s e lx ly front st Ex Ey Es).
        apply IH; [exact Hrest |]. cbn. now destruct front.
      * rewrite paint_no_last by now right. now apply IH.
      * rewrite paint_no_last by now left. now apply IH.
    + apply IH; [exact Hrest |].
      destruct (end_stroke_closes s e) as (_ & _ & -> & _). exact Hne.
Qed.

(** With nothing committed, the stroke calls that raise are the second
    of two extends not separated by a begin or an end. *)
Lemma stroke_calls_raise_iff (inputs : list input) (s : app) :
  forallb is_stroke_call inputs = true -> strokes s = [] ->
  (run s inputs = None <-> extends_before_begin (has_last s) inputs = true).
Proof.
  revert s. induction inputs as [| i rest IH]; intros s Hall Hs;
    cbn [run extends_before_begin].
  - split; discriminate.
  - cbn [forallb] in Hall. apply andb_prop in Hall as [Hi Hrest].
    destruct i; try discriminate Hi; cbn [dispatch].
    + destruct (stroke_calls_never_raise rest (_start_stroke s e) Hrest) as [s' Hs'].
      { cbn. now destruct (strokes s). }
      rewrite Hs'. split; discriminate.
    + unfold has_last.
      destruct (last_x s) as [lx |] eqn:Ex; [destruct (last_y s) as [ly |] eqn:Ey |].
      * rewrite (paint_last_empty s e lx ly Ex Ey Hs). split; reflexivity.
      * rewrite paint_no_last by now right. apply (IH (moved_to s e) Hrest Hs).
      * rewrite paint_no_last by now left. apply (IH (moved_to s e) Hrest Hs).
    + destruct (end_stroke_closes s e) as (Ex & Ey & Es & _).
      rewrite (IH (_end_stroke s e) Hrest) by now rewrite Es.
      unfold has_last. now rewrite Ex.
Qed.

(** C4. Replay determinism: after any sequence of begin-stroke,
    extend-stroke and end-stroke calls on a fresh window, the image drawn
    segment by segment as the calls arrived is the image a full replay of
    the committed strokes draws on a blank bitmap: [_redraw_from_strokes]
    changes nothing. A sequence that opens with begin-stroke runs to its
    end; the only sequences cut short by an exception are those that
    extend twice, with no end in between, before anything was begun. *)
Theorem replay_determinism (inputs : list input) :
  forallb is_stroke_call inputs = true ->
  (forall s, run init inputs = Some s ->
     image s = replay (canvas_size s) (strokes s) /\ _redraw_from_strokes s = s)
  /\ (forall e rest, inputs = Button1 e :: rest -> exists s, run init inputs = Some s)
  /\ (run init inputs = None <-> extends_before_begin false inputs = true).
Proof.
  intros Hall. split; [| split].
  - intros s Hr. pose proof (in_sync_run inputs init s Hr in_sync_init) as Hs.
    split; [exact Hs | now apply in_sync_redraw].
  - intros e rest ->. cbn [forallb is_stroke_call andb] in Hall.
    cbn [run dispatch]. apply stroke_calls_never_raise; [exact Hall | discriminate].
  - apply (stroke_calls_raise_iff inputs init Hall). reflexivity.
Qed.

End StrokeLog.

(** ** Images *)

Section ImageFacts.
Import Img.

Lemma height_mk_image w h f : height (mk_image w h f) = h.
Proof. unfold height, mk_image. now rewrite length_map, length_seq. Qed.

Lemma width_mk_image w h f : 0 < h -> width (mk_image w h f) = w.
Proof.
  unfold width, mk_image. destruct h as [| h]; [lia |]. intros _.
  cbn. now rewrite length_map, length_seq.
Qed.

Lemma getpixel_mk_image w h f x y :
  x < w -> y < h -> getpixel (mk_image w h f) x y = f x y.
Proof.
  intros Hx Hy. unfold getpixel, mk_image.
  rewrite nth_indep with (d' := map (fun x => f x 0) (seq 0 w))
    by now rewrite length_map, length_seq.
  rewrite (map_nth (fun y => map (fun x => f x y) (seq 0 w)) (seq 0 h) 0 y).
  rewrite seq_nth by exact Hy.
  rewrite nth_indep with (d' := f 0 (0 + y)) by now rewrite length_map, length_seq.
  rewrite (map_nth (fun x => f x (0 + y)) (seq 0 w) 0 x).
  now rewrite seq_nth by exact Hx.
Qed.

Lemma size_mk_image w h f : 0 < h -> size (mk_image w h f) = (w, h).
Proof. intros Hh. unfold size. now rewrite width_mk_image, height_mk_image. Qed.

Lemma size_paste base src ox oy : size (paste base src ox oy) = size base.
Proof.
  unfold paste, size. rewrite height_mk_image.
  destruct base as [| row base']; [reflexivity |].
  rewrite width_mk_image by (cbn; lia). reflexivity.
Qed.

Lemma getpixel_paste base src ox oy x y :
  x < width base -> y < height base ->
  getpixel (paste base src ox oy) x y
  = if (ox <=? x) && (x <? ox + width src) && (oy <=? y) && (y <? oy + height src)
    then getpixel src (x - ox) (y - oy)
    else getpixel base x y.
Proof. intros Hx Hy. unfold paste. now rewrite getpixel_mk_image. Qed.


Lemma Forall_concat_rows {A} (P : A -> Prop) (g : nat -> nat -> A) (w : nat) (ys : list nat) :
  (forall x y, P (g x y)) ->
  Forall P (concat (map (fun y => map (fun x => g x y) (seq 0 w)) ys)).
Proof.
  intros Hg. induction ys as [| y ys IH]; cbn; [constructor |].
  apply Forall_app. split; [| exact IH].
  apply Forall_forall. intros v Hv. apply in_map_iff in Hv as (x & <- & _). apply Hg.
Qed.

Lemma any_lt255_Image_new w h : Np.any_lt255 (Image_new w h 255) = false.
Proof.
  unfold Np.any_lt255, Image_new, mk_image.
  assert (Hrow : existsb (fun v => (v <? 255)%Z) (map (fun _ => 255%Z) (seq 0 w)) = false).
  { induction (seq 0 w) as [| x xs IHx]; cbn; auto. }
  induction (seq 0 h) as [| y ys IH]; cbn; [reflexivity |].
  now rewrite IH, Hrow.
Qed.

End ImageFacts.

(** ** The normaliser *)

Section NormalizerFacts.
Context `{Collaborators}.

(** The ink branch sends a background pixel of the resized image to 0
    and a black one to 1: ink is the high value. *)
Lemma tone_polarity : (Normalizer.tone 255 == 0)%Q /\ (Normalizer.tone 0 == 1)%Q.
Proof. split; vm_compute; reflexivity. Qed.

Lemma ink_branch_data (s : app) :
  Np.any_lt255 (image s) = true ->
  let n := model_inputs s (current_mode s) in
  Np.data (_preprocess_for_model s)
  = map Normalizer.tone
        (concat (Image_resize
                   (Normalizer.squared (Normalizer.padded (Normalizer.cropped (image s))))
                   n n LANCZOS)).
Proof.
  intros Hink. unfold _preprocess_for_model. rewrite Hink. cbn.
  unfold Img.invert. rewrite <- concat_map, !map_map. reflexivity.
Qed.


Lemma row_where_spec (row : list Z) (x0 x : nat) :
  In x (Np.row_where x0 row)
  <-> exists k, x = x0 + k /\ k < length row /\ (nth k row 0 < 255)%Z.
Proof.
  revert x0. induction row as [| v row IH]; intros x0; cbn [Np.row_where].
  - split; [intros [] | intros (k & _ & Hk & _); cbn in Hk; lia].
  - assert (Htail : In x (Np.row_where (S x0) row)
                    <-> exists k, x = x0 + S k /\ k < length row /\ (nth k row 0 < 255)%Z).
    { rewrite IH. split; intros (k & Hx & Hk); exists k; (split; [lia | exact Hk]). }
    destruct (v <? 255)%Z eqn:Ev.
    + cbn [In]. rewrite Htail. split.
      * intros [<- | (k & -> & Hk & Hv)].
        -- exists 0. cbn. apply Z.ltb_lt in Ev. repeat split; lia.
        -- exists (S k). cbn. repeat split; [lia | exact Hv].
      * intros (k & -> & Hk & Hv). destruct k as [| k]; [left; lia |].
        right. exists k. cbn in Hk, Hv. repeat split; [lia | exact Hv].
    + rewrite Htail. apply Z.ltb_ge in Ev. split.
      * intros (k & -> & Hk & Hv). exists (S k). cbn. repeat split; [lia | exact Hv].
      * intros (k & -> & Hk & Hv). destruct k as [| k]; [cbn in Hv; lia |].
        exists k. cbn in Hk, Hv. repeat split; [lia | exact Hv].
Qed.

Lemma where_from_spec (img : Img.image) (y0 y x : nat) :
  In (y, x) (Np.where_from y0 img)
  <-> exists k, y = y0 + k /\ Normalizer.is_ink img x k.
Proof.
  unfold Normalizer.is_ink, Img.getpixel.
  revert y0. induction img as [| row img IH]; intros y0; cbn [Np.where_from].
  - split; [intros [] | intros (k & _ & Hk & _); cbn in Hk; lia].
  - rewrite in_app_iff, in_map_iff, IH. split.
    + intros [(x' & [= <- <-] & Hin) | (k & -> & Hk & Hx & Hv)].
      * apply row_where_spec in Hin as (j & -> & Hj & Hv).
        exists 0. cbn. repeat split; solve [lia | exact Hv].
      * exists (S k). cbn. repeat split; solve [lia | exact Hv].
    + intros (k & -> & Hk & Hx & Hv). destruct k as [| k].
      * left. exists x. split; [f_equal; lia |].
        apply row_where_spec. exists x. cbn in Hx, Hv. repeat split; solve [lia | exact Hv].
      * right. exists k. cbn in Hk, Hx, Hv. repeat split; solve [lia | exact Hv].
Qed.

Lemma any_lt255_where (img : Img.image) :
  Np.any_lt255 img = true -> exists y x, In (y, x) (Np.where_from 0 img).
Proof.
  unfold Np.any_lt255. intros Hany.
  apply existsb_exists in Hany as (row & Hrow & Hex).
  apply existsb_exists in Hex as (v & Hv & Hlt).
  apply In_nth with (d := []) in Hrow as (y & Hy & <-).
  apply In_nth with (d := 0%Z) in Hv as (x & Hx & <-).
  exists y, x. apply where_from_spec. exists y. unfold Normalizer.is_ink, Img.getpixel.
  apply Z.ltb_lt in Hlt. auto.
Qed.

Lemma fold_min_spec (d : nat) (l : list nat) :
  let r := fold_right Nat.min d l in
  (r = d \/ In r l) /\ r <= d /\ forall x, In x l -> r <= x.
Proof.
  induction l as [| a l IH]; cbn [fold_right In].
  - split; [now left | split; [lia | intros x []]].
  - cbn zeta in IH. destruct IH as (Hin & Hd & Hall).
    set (r := fold_right Nat.min d l) in *.
    split; [| split].
    + destruct (Nat.min_spec a r) as [[_ ->] | [_ ->]]; [now right; left |].
      destruct Hin as [-> | Hin]; [now left | now right; right].
    + lia.
    + intros x [<- | Hx]; [lia |]. specialize (Hall x Hx). lia.
Qed.

Lemma amin_spec (l : list nat) :
  l <> [] -> In (Np.amin l) l /\ forall x, In x l -> Np.amin l <= x.
Proof.
  intros Hne. destruct l as [| a l]; [contradiction |]. clear Hne.
  unfold Np.amin. cbn [hd].
  destruct (fold_min_spec a (a :: l)) as (Hin & _ & Hall).
  split; [| exact Hall]. destruct Hin as [-> | Hin]; [now left | exact Hin].
Qed.

Lemma amax_spec (l : list nat) :
  l <> [] -> In (Np.amax l) l /\ forall x, In x l -> x <= Np.amax l.
Proof.
  unfold Np.amax. induction l as [| a l IH]; [contradiction |]. intros _.
  cbn [fold_right]. destruct l as [| b l].
  - cbn. split; [left; lia | intros x [<- | []]; lia].
  - destruct IH as (Hin & Hall); [discriminate |].
    set (r := fold_right Nat.max 0 (b :: l)) in *. split.
    + destruct (Nat.max_spec a r) as [[_ ->] | [_ ->]]; [now right | now left].
    + intros x [<- | Hx]; [lia |]. specialize (Hall x Hx). lia.
Qed.

Lemma amin_le_amax (l : list nat) : Np.amin l <= Np.amax l.
Proof.
  destruct l as [| a l]; [reflexivity |].
  unfold Np.amin, Np.amax. cbn [hd fold_right]. lia.
Qed.

Lemma size_cropped (img : Img.image) :
  let '(x1, x2, y1, y2) := Normalizer.ink_bbox img in
  x1 <= x2 /\ y1 <= y2
  /\ Img.size (Normalizer.cropped img) = (x2 + 1 - x1, y2 + 1 - y1).
Proof.
  unfold Normalizer.cropped, Normalizer.ink_bbox.
  destruct (Np.where_lt255 img) as [ys xs].
  pose proof (amin_le_amax xs). pose proof (amin_le_amax ys).
  split; [assumption | split; [assumption |]].
  unfold Img.crop. apply size_mk_image. lia.
Qed.

Lemma size_Image_new_padded (w h m : nat) :
  (h = 0 -> w = 0) -> Img.size (Img.Image_new (w + 2 * m) (h + 2 * m) 255) = (w + 2 * m, h + 2 * m).
Proof.
  intros Hw. destruct (h + 2 * m) as [| k] eqn:E.
  - assert (h = 0) by lia. assert (m = 0) by lia. subst m. rewrite (Hw H0). reflexivity.
  - apply size_mk_image. lia.
Qed.

(** The box found by [np.where] is the tight bounding box of the ink. *)
Lemma ink_bbox_tight (img : Img.image) :
  Np.any_lt255 img = true ->
  let '(x1, x2, y1, y2) := Normalizer.ink_bbox img in
  (forall x y, Normalizer.is_ink img x y -> x1 <= x <= x2 /\ y1 <= y <= y2)
  /\ (exists y, Normalizer.is_ink img x1 y) /\ (exists y, Normalizer.is_ink img x2 y)
  /\ (exists x, Normalizer.is_ink img x y1) /\ (exists x, Normalizer.is_ink img x y2).
Proof.
  intros Hany. unfold Normalizer.ink_bbox, Np.where_lt255.
  set (yx := Np.where_from 0 img).
  assert (Hyx : forall y x, In (y, x) yx <-> Normalizer.is_ink img x y).
  { intros y x. unfold yx. rewrite where_from_spec. split.
    - intros (k & -> & Hk). exact Hk.
    - intros Hk. now exists y. }
  destruct (any_lt255_where img Hany) as (y0 & x0 & H0). fold yx in H0.
  assert (Hxs : map snd yx <> []) by (destruct yx; [destruct H0 | discriminate]).
  assert (Hys : map fst yx <> []) by (destruct yx; [destruct H0 | discriminate]).
  destruct (amin_spec _ Hxs) as (Hx1 & Hx1le). destruct (amax_spec _ Hxs) as (Hx2 & Hx2le).
  destruct (amin_spec _ Hys) as (Hy1 & Hy1le). destruct (amax_spec _ Hys) as (Hy2 & Hy2le).
  split; [| repeat split].
  - intros x y Hink. apply Hyx in Hink.
    pose proof (in_map snd _ _ Hink) as Hx. pose proof (in_map fst _ _ Hink) as Hy.
    cbn [fst snd] in Hx, Hy.
    specialize (Hx1le x Hx). specialize (Hx2le x Hx).
    specialize (Hy1le y Hy). specialize (Hy2le y Hy). lia.
  - apply in_map_iff in Hx1 as ([y x] & Ex & Hin). cbn in Ex. subst x.
    exists y. now apply Hyx.
  - apply in_map_iff in Hx2 as ([y x] & Ex & Hin). cbn in Ex. subst x.
    exists y. now apply Hyx.
  - apply in_map_iff in Hy1 as ([y x] & Ey & Hin). cbn in Ey. subst y.
    exists x. now apply Hyx.
  - apply in_map_iff in Hy2 as ([y x] & Ey & Hin). cbn in Ey. subst y.
    exists x. now apply Hyx.
Qed.

Lemma getpixel_cropped (img : Img.image) (x y : nat) :
  let '(x1, x2, y1, y2) := Normalizer.ink_bbox img in
  x < x2 + 1 - x1 -> y < y2 + 1 - y1 ->
  Img.getpixel (Normalizer.cropped img) x y = Img.getpixel img (x1 + x) (y1 + y).
Proof.
  unfold Normalizer.cropped.
  destruct (Normalizer.ink_bbox img) as [[[x1 x2] y1] y2].
  intros Hx Hy. unfold Img.crop. now rewrite getpixel_mk_image.
Qed.

Lemma padded_layout (c : Img.image) :
  let w := Img.width c in
  let h := Img.height c in
  let m := Normalizer.padding_margin w h in
  Img.size (Normalizer.padded c) = (w + 2 * m, h + 2 * m)
  /\ (forall x y, x < w + 2 * m -> y < h + 2 * m ->
        Img.getpixel (Normalizer.padded c) x y
        = if (m <=? x) && (x <? m + w) && (m <=? y) && (y <? m + h)
          then Img.getpixel c (x - m) (y - m)
          else 255%Z).
Proof.
  cbn zeta.
  set (m := Normalizer.padding_margin (Img.width c) (Img.height c)).
  assert (Hw0 : Img.height c = 0 -> Img.width c = 0).
  { unfold Img.height, Img.width. destruct c; [reflexivity | discriminate]. }
  split.
  - unfold Normalizer.padded, Img.size. fold m.
    change (Img.width (Img.paste ?b ?s ?x ?y), Img.height (Img.paste ?b ?s ?x ?y))
      with (Img.size (Img.paste b s x y)).
    rewrite size_paste. now apply size_Image_new_padded.
  - intros x y Hx Hy. unfold Normalizer.padded, Img.size. fold m.
    pose proof (size_Image_new_padded (Img.width c) (Img.height c) m Hw0) as Hs.
    pose proof (f_equal fst Hs) as Hbw. pose proof (f_equal snd Hs) as Hbh.
    cbn [fst snd Img.size] in Hbw, Hbh.
    rewrite getpixel_paste by (rewrite ?Hbw, ?Hbh; assumption).
    destruct ((m <=? x) && (x <? m + Img.width c) && (m <=? y) && (y <? m + Img.height c));
      [reflexivity |].
    unfold Img.Image_new. now rewrite getpixel_mk_image.
Qed.

(** C2 (amended). On a canvas with ink, the crop is the tight bounding
    box of the ink, w x h, and the margin put on each of its four sides
    is the fifth of the longer side truncated to an integer,
    [m = floor(0.20 * max(w, h))]: the padded image measures
    (w + 2m) x (h + 2m), holds the crop at offset (m, m) and background
    255 everywhere else. *)
Theorem padding_margin_is_truncated_fifth (img : Img.image) :
  Np.any_lt255 img = true ->
  let '(x1, x2, y1, y2) := Normalizer.ink_bbox img in
  let c := Normalizer.cropped img in
  let w := x2 + 1 - x1 in
  let h := y2 + 1 - y1 in
  let m := Normalizer.padding_margin w h in
  ((forall x y, Normalizer.is_ink img x y -> x1 <= x <= x2 /\ y1 <= y <= y2)
   /\ (exists y, Normalizer.is_ink img x1 y) /\ (exists y, Normalizer.is_ink img x2 y)
   /\ (exists x, Normalizer.is_ink img x y1) /\ (exists x, Normalizer.is_ink img x y2))
  /\ (Img.size c = (w, h)
      /\ forall x y, x < w -> y < h ->
           Img.getpixel c x y = Img.getpixel img (x1 + x) (y1 + y))
  /\ (5 * m <= Nat.max w h < 5 * (m + 1))
  /\ Img.size (Normalizer.padded c) = (w + 2 * m, h + 2 * m)
  /\ (forall x y, x < w + 2 * m -> y < h + 2 * m ->
        Img.getpixel (Normalizer.padded c) x y
        = if (m <=? x) && (x <? m + w) && (m <=? y) && (y <? m + h)
          then Img.getpixel c (x - m) (y - m)
          else 255%Z).
Proof.
  intros Hany.
  pose proof (ink_bbox_tight img Hany) as Htight.
  pose proof (size_cropped img) as Hsize.
  pose proof (fun x y => getpixel_cropped img x y) as Hpix.
  pose proof (padded_layout (Normalizer.cropped img)) as Hpad.
  destruct (Normalizer.ink_bbox img) as [[[x1 x2] y1] y2].
  destruct Hsize as (_ & _ & Hsize).
  pose proof (f_equal fst Hsize) as Hw. pose proof (f_equal snd Hsize) as Hh.
  cbn [fst snd Img.size] in Hw, Hh. cbn zeta in Hpad. rewrite Hw, Hh in Hpad.
  cbn zeta. split; [exact Htight | split; [| split]].
  - split; [exact Hsize | exact Hpix].
  - unfold Normalizer.padding_margin.
    pose proof (Nat.div_mod_eq (Nat.max (x2 + 1 - x1) (y2 + 1 - y1)) 5).
    pose proof (Nat.mod_upper_bound (Nat.max (x2 + 1 - x1) (y2 + 1 - y1)) 5). lia.
  - exact Hpad.
Qed.

End NormalizerFacts.

(** ** Ranking: [np.argmax] and [np.argsort] *)

Section Ranking.
Context `{Collaborators}.
Variable p : list Q.

Local Abbreviation val i := (nth i p 0%Q).

Lemma sorted_last_dominates (R : nat -> nat -> Prop) (l : list nat) (d : nat) :
  StronglySorted R l -> forall x, In x l -> x = last l d \/ R x (last l d).
Proof.
  intros Hs. induction Hs as [| a l Hs IH Ha]; intros x Hx; [destruct Hx |].
  destruct l as [| b l]; [destruct Hx as [<- | []]; now left |].
  change (last (a :: b :: l) d) with (last (b :: l) d).
  destruct Hx as [<- | Hx]; [| now apply IH].
  right. rewrite Forall_forall in Ha. apply Ha.
  destruct (exists_last (l := b :: l)) as (front & t & E); [discriminate |].
  rewrite E, last_last. apply in_or_app. right. now left.
Qed.

Lemma hd_rev_last (l : list nat) (d : nat) : l <> [] -> hd_error (rev l) = Some (last l d).
Proof.
  intros Hne. destruct (exists_last Hne) as (front & t & ->).
  now rewrite rev_app_distr, last_last.
Qed.

(** The first of the top indices is the greatest index, in the order
    that breaks ties by index: a maximum, and the last of the maxima. *)
(** The first of the top indices holds the maximum of the vector. *)
Lemma top_indices_head :
  p <> [] ->
  exists t, hd_error (top_indices p) = Some t
    /\ t < length p
    /\ forall k, k < length p -> (val k <= val t)%Q.
Proof.
  intros Hne.
  assert (Hl : np_argsort p <> []).
  { intros E. destruct p as [| v q]; [contradiction |].
    assert (Hi : In 0 (np_argsort (v :: q))) by (apply np_argsort_indices; cbn; lia).
    rewrite E in Hi. destruct Hi. }
  exists (last (np_argsort p) 0). split; [| split].
  - unfold top_indices. pose proof (hd_rev_last _ 0 Hl) as Hh.
    destruct (rev (np_argsort p)); [discriminate | exact Hh].
  - destruct (exists_last Hl) as (front & t & E). rewrite E, last_last.
    apply np_argsort_indices. rewrite E. apply in_or_app. right. now left.
  - intros k Hk.
    destruct (sorted_last_dominates _ _ 0 (np_argsort_sorted p) k) as [-> | Hle].
    + now apply np_argsort_indices.
    + apply Qle_refl.
    + exact Hle.
Qed.

Lemma argmax_from_spec (l pre : list Q) (best_i : nat) (best : Q) :
  p = pre ++ l -> best_i < length pre -> best = val best_i ->
  (forall k, k < length pre -> (val k <= best)%Q) ->
  (forall k, k < best_i -> (val k < best)%Q) ->
  let r := Np.argmax_from best_i best (length pre) l in
  r < length p
  /\ (forall k, k < length p -> (val k <= val r)%Q)
  /\ (forall k, k < r -> (val k < val r)%Q).
Proof.
  revert pre best_i best. induction l as [| v l IH];
    intros pre best_i best Hp Hb Hbest Hle Hlt; cbn [Np.argmax_from].
  - rewrite app_nil_r in Hp. subst pre. rewrite <- Hbest. auto.
  - assert (Hp' : p = (pre ++ [v]) ++ l) by now rewrite <- app_assoc.
    assert (Hv : val (length pre) = v).
    { rewrite Hp, app_nth2, Nat.sub_diag by lia. reflexivity. }
    assert (Hlen : length (pre ++ [v]) = S (length pre)) by (rewrite length_app; cbn; lia).
    destruct (Np.Qlt_bool best v) eqn:E.
    + apply Qlt_bool_iff in E. rewrite <- Hlen.
      apply (IH (pre ++ [v]) (length pre) v Hp'); [lia | now symmetry | |].
      * intros k Hk. rewrite Hlen in Hk.
        destruct (Nat.eq_dec k (length pre)) as [-> | Hne]; [rewrite Hv; apply Qle_refl |].
        apply Qle_trans with best; [apply Hle; lia | now apply Qlt_le_weak].
      * intros k Hk. apply Qle_lt_trans with best; [now apply Hle | exact E].
    + apply Qlt_bool_false_iff in E. rewrite <- Hlen.
      apply (IH (pre ++ [v]) best_i best Hp'); [lia | exact Hbest | | exact Hlt].
      intros k Hk. rewrite Hlen in Hk.
      destruct (Nat.eq_dec k (length pre)) as [-> | Hne]; [now rewrite Hv |].
      apply Hle. lia.
Qed.

(** [np.argmax] is the first index that holds the maximum. *)
Lemma argmax_spec :
  p <> [] ->
  exists a, Np.argmax p = Some a
    /\ a < length p
    /\ (forall k, k < length p -> (val k <= val a)%Q)
    /\ (forall k, k < a -> (val k < val a)%Q).
Proof.
  intros Hne. destruct p as [| v q] eqn:Ep; [contradiction |].
  exists (Np.argmax_from 0 v 1 q). split; [reflexivity |].
  rewrite <- Ep.
  apply (argmax_from_spec q [v] 0 v); cbn; try lia.
  - now rewrite Ep.
  - now rewrite Ep.
  - intros k Hk. assert (k = 0) by lia. subst k. rewrite Ep. apply Qle_refl.
Qed.

End Ranking.

Section TiedMaxima.
Context `{Collaborators}.

(** C3 (amended). When the maximum occurs at two class indices [i < j],
    the first row of the top-5 listing ([np.argsort(probs)[::-1][:5]]) is
    a class that holds the maximum, but nothing fixes which: the listing
    is the reverse of NumPy's default ascending order, whatever that
    order is among equal values. Only the headline ([np.argmax]) breaks
    the tie by index: it is the lowest class holding the maximum, hence
    never above the class of the first row. *)
Theorem first_row_is_some_tied_maximum (probs : list Q) (i j : nat) :
  i < j < length probs ->
  (nth i probs 0 == nth j probs 0)%Q ->
  (forall k, k < length probs -> (nth k probs 0 <= nth i probs 0)%Q) ->
  exists t a,
    hd_error (top_indices probs) = Some t
    /\ Np.argmax probs = Some a
    /\ t < length probs
    /\ (nth t probs 0 == nth i probs 0)%Q
    /\ (nth a probs 0 == nth i probs 0)%Q
    /\ a <= i /\ a <= t
    /\ (forall k, k < a -> (nth k probs 0 < nth a probs 0)%Q).
Proof.
  intros Hij Etie Hmax.
  assert (Hne : probs <> []) by (destruct probs; [cbn in Hij; lia | discriminate]).
  destruct (top_indices_head probs Hne) as (t & Ht & Htlen & Hdom).
  destruct (argmax_spec probs Hne) as (a & Ha & Halen & Hage & Hafirst).
  exists t, a. split; [exact Ht | split; [exact Ha | split; [exact Htlen |]]].
  assert (Et : (nth t probs 0 == nth i probs 0)%Q).
  { apply Qle_antisym; [now apply Hmax | apply Hdom; lia]. }
  assert (Ea : (nth a probs 0 == nth i probs 0)%Q).
  { apply Qle_antisym; [now apply Hmax | apply Hage; lia]. }
  assert (Hai : a <= i).
  { destruct (Nat.le_gt_cases a i) as [Hle | Hgt]; [exact Hle |].
    exfalso. apply (Qlt_not_le _ _ (Hafirst i Hgt)). now apply Hmax. }
  assert (Hat : a <= t).
  { destruct (Nat.le_gt_cases a t) as [Hle | Hgt]; [exact Hle |].
    exfalso. apply (Qlt_not_le _ _ (Hafirst t Hgt)). rewrite Et, Ea. apply Qle_refl. }
  auto 10.
Qed.

End TiedMaxima.

(** ** The single-family hiragana tool *)

Section Hiragana.
Context `{Collaborators}.

Lemma max_from_spec (l : list Q) (best : Q) :
  let r := Np.max_from best l in
  (r = best \/ In r l) /\ (best <= r)%Q /\ forall q, In q l -> (q <= r)%Q.
Proof.
  revert best. induction l as [| v l IH]; intros best; cbn [Np.max_from In].
  - split; [now left | split; [apply Qle_refl | intros q []]].
  - destruct (Np.Qlt_bool best v) eqn:E.
    + apply Qlt_bool_iff in E. destruct (IH v) as (Hin & Hle & Hall).
      split; [| split].
      * destruct Hin as [-> | Hin]; right; [now left | now right].
      * apply Qle_trans with v; [now apply Qlt_le_weak | exact Hle].
      * intros q [<- | Hq]; [exact Hle | now apply Hall].
    + apply Qlt_bool_false_iff in E. destruct (IH best) as (Hin & Hle & Hall).
      split; [| split].
      * destruct Hin as [-> | Hin]; [now left | right; now right].
      * exact Hle.
      * intros q [<- | Hq]; [now apply Qle_trans with best | now apply Hall].
Qed.

Lemma max_spec (l : list Q) (c : Q) :
  Np.max l = Some c -> In c l /\ forall q, In q l -> (q <= c)%Q.
Proof.
  destruct l as [| v l]; [discriminate |]. cbn [Np.max]. intros [= <-].
  destruct (max_from_spec l v) as (Hin & Hle & Hall). split.
  - destruct Hin as [-> | Hin]; [now left | now right].
  - intros q [<- | Hq]; [exact Hle | now apply Hall].
Qed.

(** The threshold test on rationals is the test the floats make: for a
    float32 [k / 2^24] (every float32 in [1/2, 1) has this form, and the
    smaller ones are below all three bounds), being below 17/20, below the
    double nearest to 0.85 and below the float32 nearest to 0.85 are the
    same. *)
Lemma threshold_on_float32 (k : Z) :
  let c := (k # 16777216)%Q in
  ((c < 85 # 100)%Q <-> (c < 7656119366529843 # 9007199254740992)%Q)
  /\ ((c < 85 # 100)%Q <-> (c < 14260634 # 16777216)%Q).
Proof. cbn zeta. unfold Qlt. cbn [Qnum Qden]. lia. Qed.


End Hiragana.

(* ================================================================== *)
(** * Concrete sessions *)


(** C3, as stated, fails with the sort that keeps equal values in input
    order: of the classes of probability 0, class 9 is listed before
    class 7, and class 2, which ties with both, is left out. *)
Lemma ties_not_broken_by_ascending_index :
  let top := @top_indices Sample.collaborators Sample.tied_probs in
  (nth 2 Sample.tied_probs 0 == nth 9 Sample.tied_probs 0)%Q
  /\ (nth 7 Sample.tied_probs 0 == nth 9 Sample.tied_probs 0)%Q
  /\ ~ In 2 top
  /\ exists pre mid post, top = pre ++ 9 :: mid ++ 7 :: post.
Proof.
  cbn zeta. split; [reflexivity | split; [reflexivity | split]].
  - vm_compute. intuition discriminate.
  - exists [1; 0], [8], []. vm_compute. reflexivity.
Qed.


(** C2, as stated, fails on a bar of ink 98 wide and 7 high: the code
    pads by 19 on each side where rounding 19.6 gives 20. *)
Lemma padding_margin_not_rounded :
  let c := Normalizer.cropped Sample.bar_canvas in
  Np.any_lt255 Sample.bar_canvas = true
  /\ Img.size c = (98, 7)
  /\ Img.size (Normalizer.padded c) = (98 + 2 * 19, 7 + 2 * 19)
  /\ Normalizer.spec_round_margin 98 7 = 20
  /\ Normalizer.padding_margin 98 7 <> Normalizer.spec_round_margin 98 7.
Proof.
  cbn zeta.
  split; [vm_compute; reflexivity |].
  split; [vm_compute; reflexivity |].
  split; [vm_compute; reflexivity |].
  split; [vm_compute; reflexivity |].
  vm_compute. discriminate.
Qed.

Lemma padding_margin_witness :
  Img.size (Normalizer.padded (Normalizer.cropped Sample.bar_canvas)) = (136, 45).
Proof.
  assert (Hany : Np.any_lt255 Sample.bar_canvas = true) by (vm_compute; reflexivity).
  assert (Hbox : Normalizer.ink_bbox Sample.bar_canvas = (100, 197, 150, 156))
    by (vm_compute; reflexivity).
  pose proof (padding_margin_is_truncated_fifth Sample.bar_canvas Hany) as T.
  rewrite Hbox in T. cbv beta iota zeta in T.
  destruct T as (_ & _ & _ & T & _). exact T.
Defined.

Lemma first_row_is_some_tied_maximum_witness :
  exists t a,
    hd_error (@top_indices Sample.collaborators Sample.tied_probs) = Some t
    /\ Np.argmax Sample.tied_probs = Some a
    /\ t < length Sample.tied_probs
    /\ (nth t Sample.tied_probs 0 == nth 0 Sample.tied_probs 0)%Q
    /\ (nth a Sample.tied_probs 0 == nth 0 Sample.tied_probs 0)%Q
    /\ a <= 0 /\ a <= t
    /\ (forall k, k < a -> (nth k Sample.tied_probs 0 < nth a Sample.tied_probs 0)%Q).
Proof.
  apply (@first_row_is_some_tied_maximum Sample.collaborators Sample.tied_probs 0 1).
  - cbn. lia.
  - reflexivity.
  - intros k Hk. do 10 (destruct k as [| k]; [vm_compute; discriminate |]).
    cbn in Hk. lia.
Defined.

Lemma replay_determinism_witness :
  exists s,
    @run Sample.collaborators (@init Sample.collaborators) Sample.one_stroke = Some s
    /\ @_redraw_from_strokes Sample.collaborators s = s.
Proof.
  destruct (@replay_determinism Sample.collaborators Sample.one_stroke eq_refl)
    as (Hsync & Htotal & _).
  destruct (Htotal _ _ eq_refl) as [s Hs].
  exists s. split; [exact Hs | apply (Hsync s Hs)].
Defined.

Lemma undo_then_redo_witness :
  let s := _start_stroke (@init Sample.collaborators) (Sample.at_xy 40 40) in
  strokes (@redo Sample.collaborators (@undo Sample.collaborators s)) = strokes s
  /\ redo_stack (@redo Sample.collaborators (@undo Sample.collaborators s)) = redo_stack s.
Proof.
  cbn zeta.
  apply (@undo_then_redo_restores Sample.collaborators
           (_start_stroke (@init Sample.collaborators) (Sample.at_xy 40 40))).
  cbn. discriminate.
Defined.

(** C7, as stated, fails: an extend before any begin-stroke, and one
    right after end-stroke, both return without raising. *)
Lemma extend_without_open_stroke_does_not_fail :
  let e := Sample.at_xy 10 20 in
  let fresh := @init Sample.collaborators in
  let ended := @_end_stroke Sample.collaborators (_start_stroke fresh e) e in
  (forall ex s', @_paint Sample.collaborators fresh e <> Raised ex s')
  /\ (forall ex s', @_paint Sample.collaborators ended e <> Raised ex s').
Proof.
  cbn zeta. split; intros ex s'.
  - rewrite paint_no_last by (left; reflexivity). discriminate.
  - rewrite paint_no_last by (left; apply end_stroke_closes). discriminate.
Qed.

Lemma paint_without_open_stroke_witness :
  @_paint Sample.collaborators (@init Sample.collaborators) (Sample.at_xy 10 20)
  = Returned (moved_to (@init Sample.collaborators) (Sample.at_xy 10 20)).
Proof.
  apply (@paint_without_open_stroke_returns Sample.collaborators
           (@init Sample.collaborators) (Sample.at_xy 10 20)).
  left. reflexivity.
Defined.

Lemma clear_mid_stroke_witness :
  exists s',
    @_paint Sample.collaborators
      (clear_canvas (_start_stroke (@init Sample.collaborators) (Sample.at_xy 40 40)))
      (Sample.at_xy 50 40)
    = Raised IndexError s'.
Proof.
  apply (@paint_total_only_with_a_stroke Sample.collaborators
           (@init Sample.collaborators) (Sample.at_xy 50 40)).
Defined.


(* ================================================================== *)
(** * Further properties of the unified tool *)

Section UndoRedo.
Context `{Collaborators}.

Lemma undo_snoc (s : app) (front : list stroke) (st : stroke) :
  strokes s = front ++ [st] ->
  undo s
  = _reset_results
      (_redraw_from_strokes
         (set_redo_stack (set_strokes s front) (redo_stack s ++ [st]))).
Proof. intros E. unfold undo. rewrite E, pop_app_last. reflexivity. Qed.

Lemma undo_nil (s : app) : strokes s = [] -> undo s = s.
Proof. intros E. unfold undo. rewrite E. reflexivity. Qed.

Lemma redo_snoc (s : app) (rest : list stroke) (st : stroke) :
  redo_stack s = rest ++ [st] ->
  redo s
  = _reset_results
      (_redraw_from_strokes
         (set_strokes (set_redo_stack s rest) (strokes s ++ [st]))).
Proof. intros E. unfold redo. rewrite E, pop_app_last. reflexivity. Qed.

Lemma redo_nil (s : app) : redo_stack s = [] -> redo s = s.
Proof. intros E. unfold redo. rewrite E. reflexivity. Qed.

Lemma undo_snoc_lists (s : app) (front : list stroke) (st : stroke) :
  strokes s = front ++ [st] ->
  strokes (undo s) = front /\ redo_stack (undo s) = redo_stack s ++ [st].
Proof. intros E. rewrite (undo_snoc s front st E), redraw_is_replay. auto. Qed.

Lemma redo_snoc_lists (s : app) (rest : list stroke) (st : stroke) :
  redo_stack s = rest ++ [st] ->
  strokes (redo s) = strokes s ++ [st] /\ redo_stack (redo s) = rest.
Proof. intros E. rewrite (redo_snoc s rest st E), redraw_is_replay. auto. Qed.

(** X1. Undo and redo only move strokes across the boundary between the
    committed list and the redo stack: the committed strokes followed by
    the redo stack read backwards are the same sequence before and after
    either operation, so no stroke is lost, duplicated or reordered. *)
Theorem undo_redo_conserve_strokes (s : app) :
  strokes (undo s) ++ rev (redo_stack (undo s)) = strokes s ++ rev (redo_stack s)
  /\ strokes (redo s) ++ rev (redo_stack (redo s)) = strokes s ++ rev (redo_stack s).
Proof.
  split.
  - destruct (strokes s) as [| a l] eqn:E.
    + now rewrite (undo_nil s E), E.
    + destruct (nonempty_snoc (a :: l)) as (front & st & E'); [discriminate |].
      rewrite E' in E. destruct (undo_snoc_lists s front st E) as (-> & ->).
      rewrite E', rev_app_distr, <- app_assoc. reflexivity.
  - destruct (redo_stack s) as [| a l] eqn:E.
    + now rewrite (redo_nil s E), E.
    + destruct (nonempty_snoc (a :: l)) as (rest & st & E'); [discriminate |].
      rewrite E' in E. destruct (redo_snoc_lists s rest st E) as (-> & ->).
      rewrite E', rev_app_distr, <- app_assoc. reflexivity.
Qed.

(** X2. Redo followed at once by undo is the identity on the two
    sequences, whenever there is something to redo. *)
Theorem redo_then_undo_restores (s : app) :
  redo_stack s <> [] ->
  strokes (undo (redo s)) = strokes s
  /\ redo_stack (undo (redo s)) = redo_stack s.
Proof.
  intros Hne. destruct (nonempty_snoc _ Hne) as (rest & st & E).
  destruct (redo_snoc_lists s rest st E) as (Es & Er).
  destruct (undo_snoc_lists (redo s) (strokes s) st Es) as (-> & ->).
  now rewrite Er, E.
Qed.

Lemma undo_iter_tail (tail : list stroke) (s : app) (front : list stroke) :
  strokes s = front ++ tail ->
  strokes (Nat.iter (length tail) undo s) = front
  /\ redo_stack (Nat.iter (length tail) undo s) = redo_stack s ++ rev tail.
Proof.
  revert front. induction tail as [| t tail IH]; intros front E; cbn [length].
  - cbn. now rewrite app_nil_r in *.
  - rewrite Nat.iter_succ.
    destruct (IH (front ++ [t])) as (Es & Er); [now rewrite <- app_assoc |].
    destruct (undo_snoc_lists _ front t Es) as (-> & ->).
    rewrite Er. cbn [rev]. now rewrite app_assoc.
Qed.

Lemma redo_iter_tail (tail : list stroke) (s : app) (rest : list stroke) :
  redo_stack s = rest ++ rev tail ->
  strokes (Nat.iter (length tail) redo s) = strokes s ++ tail
  /\ redo_stack (Nat.iter (length tail) redo s) = rest.
Proof.
  revert rest. induction tail as [| t tail IH] using rev_ind; intros rest E.
  - cbn in *. now rewrite app_nil_r in *.
  - rewrite length_app, Nat.add_comm. cbn [length Nat.add]. rewrite Nat.iter_succ.
    rewrite rev_app_distr in E. cbn [rev List.app] in E.
    destruct (IH (rest ++ [t])) as (Es & Er); [now rewrite <- app_assoc |].
    destruct (redo_snoc_lists _ rest t Er) as (-> & ->).
    now rewrite Es, <- app_assoc.
Qed.

(** X3. Undoing [n] strokes, for [n] up to the number committed, leaves
    the first ones committed and stacks the last [n], most recent at the
    bottom; redoing [n] times then brings both sequences back exactly. *)
Theorem undo_n_then_redo_n_restores (s : app) (n : nat) :
  n <= length (strokes s) ->
  let u := Nat.iter n undo s in
  strokes u = firstn (length (strokes s) - n) (strokes s)
  /\ redo_stack u = redo_stack s ++ rev (skipn (length (strokes s) - n) (strokes s))
  /\ strokes (Nat.iter n redo u) = strokes s
  /\ redo_stack (Nat.iter n redo u) = redo_stack s.
Proof.
  intros Hn. cbn zeta.
  set (k := length (strokes s) - n).
  assert (Hlen : length (skipn k (strokes s)) = n) by (rewrite length_skipn; lia).
  assert (E : strokes s = firstn k (strokes s) ++ skipn k (strokes s))
    by now rewrite firstn_skipn.
  destruct (undo_iter_tail _ s _ E) as (Es & Er). rewrite Hlen in Es, Er.
  destruct (redo_iter_tail _ _ _ Er) as (Es' & Er'). rewrite Hlen in Es', Er'.
  rewrite Es in Es'. rewrite firstn_skipn in Es'. auto.
Qed.

(** X4. Undo past the first stroke is harmless: with at least as many
    undos as committed strokes the committed list is empty, the redo stack
    holds every stroke once, and further undos change nothing. *)
Theorem undo_past_the_start (s : app) (n : nat) :
  length (strokes s) <= n ->
  strokes (Nat.iter n undo s) = []
  /\ redo_stack (Nat.iter n undo s) = redo_stack s ++ rev (strokes s)
  /\ undo (Nat.iter n undo s) = Nat.iter n undo s.
Proof.
  intros Hn.
  assert (Hall : strokes (Nat.iter (length (strokes s)) undo s) = []
                 /\ redo_stack (Nat.iter (length (strokes s)) undo s)
                    = redo_stack s ++ rev (strokes s))
    by (apply (undo_iter_tail (strokes s) s []); reflexivity).
  assert (Hfix : forall m, strokes (Nat.iter (length (strokes s) + m) undo s) = []
                 /\ redo_stack (Nat.iter (length (strokes s) + m) undo s)
                    = redo_stack s ++ rev (strokes s)).
  { induction m as [| m IHm].
    - now rewrite Nat.add_0_r.
    - rewrite Nat.add_succ_r, Nat.iter_succ.
      destruct IHm as (Es & Er). now rewrite (undo_nil _ Es). }
  replace n with (length (strokes s) + (n - length (strokes s))) by lia.
  destruct (Hfix (n - length (strokes s))) as (Es & Er).
  split; [exact Es | split; [exact Er | now apply undo_nil]].
Qed.

End UndoRedo.

Section Sessions.
Context `{Collaborators}.

Lemma canvas_size_dispatch (s s' : app) (i : input) :
  dispatch s i = Returned s' -> canvas_size s' = canvas_size s.
Proof.
  destruct i; cbn [dispatch]; intros Hd; try (injection Hd as <-); try reflexivity.
  - unfold _paint in Hd. destruct (last_x s), (last_y s); try (now injection Hd as <-).
    destruct (append_to_last _ _); [now injection Hd as <- | discriminate].
  - pose proof (end_stroke_ink s e) as E. unfold ink_state in E.
    now injection E as _ _ _ E _ _ _ _.
  - pose proof (recognize_ink s) as E. unfold ink_state in E.
    now injection E as _ _ _ E _ _ _ _.
  - unfold undo. destruct (pop (strokes s)) as [[st rest] |]; [| reflexivity].
    now rewrite redraw_is_replay.
  - unfold redo. destruct (pop (redo_stack s)) as [[st rest] |]; [| reflexivity].
    now rewrite redraw_is_replay.
  - destruct s as [cm cl lg cs mi lw lx ly im ss rs mv lv av rl cb ml tt dg].
    destruct m, lg; reflexivity.
  - destruct s as [cm cl lg cs mi lw lx ly im ss rs mv lv av rl cb ml tt dg].
    cbn. destruct (String.eqb l "English"); reflexivity.
Qed.

(** X5. The canvas image is a cache of the stroke log through a whole
    session: after any sequence of mouse events, recognitions, undos,
    redos, clears, brush, mode and language changes in which every handler
    returned, the 320 x 320 image is exactly the replay of the committed
    strokes on a blank bitmap. *)
Theorem session_keeps_image_in_sync (inputs : list input) (s : app) :
  run init inputs = Some s ->
  canvas_size s = 320
  /\ image s = replay 320 (strokes s)
  /\ _redraw_from_strokes s = s.
Proof.
  intros Hr.
  assert (Hc : forall inputs s0 s1, run s0 inputs = Some s1 -> canvas_size s1 = canvas_size s0).
  { clear. intros inputs. induction inputs as [| i rest IH]; intros s0 s1; cbn [run].
    - now intros [= <-].
    - destruct (dispatch s0 i) as [s' | ex s'] eqn:Ed; [| discriminate].
      intros Hr. rewrite (IH _ _ Hr). eapply canvas_size_dispatch; eauto. }
  pose proof (Hc _ _ _ Hr) as Hsize. cbn in Hsize.
  pose proof (in_sync_run inputs init s Hr in_sync_init) as Hs.
  split; [exact Hsize | split].
  - unfold in_sync in Hs. now rewrite Hsize in Hs.
  - now apply in_sync_redraw.
Qed.

(** X6. Clearing is final: it blanks the image (which is then the replay
    of the empty log, whatever the state was), empties both sequences, and
    neither undo nor redo nor a second clear changes anything afterwards,
    so cleared strokes cannot be brought back. *)
Theorem clear_canvas_is_final (s : app) :
  let c := clear_canvas s in
  strokes c = [] /\ redo_stack c = []
  /\ image c = Img.Image_new (canvas_size s) (canvas_size s) 255
  /\ in_sync c
  /\ undo c = c /\ redo c = c /\ clear_canvas c = c.
Proof.
  cbn zeta.
  split; [reflexivity |]. split; [reflexivity |]. split; [reflexivity |].
  split; [reflexivity |]. split; [reflexivity |]. split; reflexivity.
Qed.


Lemma chain_contiguous (ps : list event) (x y w : Z) :
  Gesture.contiguous (Gesture.chain x y ps w)
  /\ length (Gesture.chain x y ps w) = length ps.
Proof.
  revert x y. induction ps as [| e ps IH]; intros x y; cbn; [auto |].
  destruct (IH (ev_x e) (ev_y e)) as (Hc & Hl). split; [| now rewrite Hl].
  split; [| exact Hc]. destruct ps; cbn; auto.
Qed.

Lemma run_motions (ps : list event) (rest : list input) (s : app)
      (front : list stroke) (st : stroke) (lx ly : Z) :
  last_x s = Some lx -> last_y s = Some ly -> strokes s = front ++ [st] ->
  exists s',
    run s (map B1Motion ps ++ rest) = run s' rest
    /\ strokes s' = front ++ [st ++ Gesture.chain lx ly ps (line_width s)]
    /\ image s' = fold_left draw_segment (Gesture.chain lx ly ps (line_width s)) (image s)
    /\ redo_stack s' = redo_stack s /\ line_width s' = line_width s
    /\ canvas_size s' = canvas_size s /\ auto_var s' = auto_var s
    /\ has_last s' = true.
Proof.
  revert s st lx ly. induction ps as [| e ps IH]; intros s st lx ly Ex Ey Es.
  - exists s. cbn. rewrite app_nil_r. unfold has_last. rewrite Ex, Ey. auto 10.
  - cbn [map List.app run dispatch].
    rewrite (paint_last_snoc s e lx ly front st Ex Ey Es).
    set (s1 := moved_to _ e).
    destruct (IH s1 (st ++ [(lx, ly, ev_x e, ev_y e, line_width s)]) (ev_x e) (ev_y e))
      as (s' & Hr & Hs & Hi & Hrd & Hw & Hc & Ha & Hl); try reflexivity.
    exists s'. split; [exact Hr |]. cbn [Gesture.chain fold_left].
    rewrite Hs, Hi, Hrd, Hw, Hc, Ha. cbn. rewrite <- app_assoc. auto 10.
Qed.

(** X8. A complete drag (press, any number of moves, release) never
    raises. It empties the redo stack and commits exactly one new stroke:
    the chain of segments from the press position through the positions
    moved to, each with the current brush width and each starting where
    the previous one ended; these segments, and nothing else, are drawn
    onto the image. *)
Theorem drag_commits_one_contiguous_stroke (s : app) (p0 q : event) (ps : list event) :
  let st := Gesture.chain (ev_x p0) (ev_y p0) ps (line_width s) in
  exists s',
    run s (Gesture.drag p0 ps q) = Some s'
    /\ strokes s' = strokes s ++ [st]
    /\ redo_stack s' = []
    /\ image s' = fold_left draw_segment st (image s)
    /\ (last_x s' = None /\ last_y s' = None)
    /\ Gesture.contiguous st /\ length st = length ps.
Proof.
  cbn zeta. unfold Gesture.drag. cbn [run dispatch].
  destruct (run_motions ps [ButtonRelease1 q] (_start_stroke s p0) (strokes s) []
              (ev_x p0) (ev_y p0))
    as (s1 & Hr & Hs & Hi & Hrd & Hw & _); try reflexivity.
  cbn [List.app line_width image redo_stack _start_stroke moved_to set_last_x set_last_y
       set_strokes set_redo_stack] in Hs, Hi, Hrd.
  exists (_end_stroke s1 q). rewrite Hr. cbn [run dispatch].
  pose proof (end_stroke_ink s1 q) as Ek. unfold ink_state in Ek.
  injection Ek as Ei Es Er _ Ex Ey _ _.
  destruct (chain_contiguous ps (ev_x p0) (ev_y p0) (line_width s)) as (Hc & Hl).
  rewrite Es, Er, Ei, Ex, Ey, Hs, Hi, Hrd. auto 10.
Qed.

(** X9. Releasing the button does not seal a stroke. Motion events that
    arrive after a release, with no press in between, go to the stroke
    committed last: the first only records its position, the second adds
    a segment between the two positions to that stroke. *)
Theorem motion_after_release_extends_last_stroke
        (s : app) (front : list stroke) (st : stroke) (e q1 q2 : event) :
  strokes s = front ++ [st] ->
  exists s',
    run (_end_stroke s e) [B1Motion q1; B1Motion q2] = Some s'
    /\ strokes s'
       = front ++ [st ++ [(ev_x q1, ev_y q1, ev_x q2, ev_y q2, line_width s)]]
    /\ redo_stack s' = redo_stack s.
Proof.
  intros Es.
  pose proof (end_stroke_ink s e) as Ek. unfold ink_state in Ek.
  injection Ek as _ Es' Er _ Ex Ey Ew _.
  cbn [run dispatch]. rewrite paint_no_last by now left.
  assert (Hs1 : strokes (moved_to (_end_stroke s e) q1) = front ++ [st])
    by (cbn; now rewrite Es').
  rewrite (paint_last_snoc (moved_to (_end_stroke s e) q1) q2 (ev_x q1) (ev_y q1)
             front st eq_refl eq_refl Hs1).
  eexists. split; [reflexivity |]. cbn. rewrite Ew, Er. auto.
Qed.

(** X10. A motion event that returns touches at most the last committed
    stroke: the number of committed strokes, every stroke before the last
    and the redo stack are unchanged, and the last stroke keeps its
    segments, gaining at most one at its end. *)
Theorem paint_touches_only_last_stroke (s s' : app) (e : event) :
  _paint s e = Returned s' ->
  length (strokes s') = length (strokes s)
  /\ removelast (strokes s') = removelast (strokes s)
  /\ redo_stack s' = redo_stack s
  /\ exists added, length added <= 1
       /\ last (strokes s') [] = last (strokes s) [] ++ added.
Proof.
  intros Hp.
  destruct (last_x s) as [lx |] eqn:Ex; [destruct (last_y s) as [ly |] eqn:Ey |].
  - destruct (strokes s) as [| a ss] eqn:Es.
    + rewrite (paint_last_empty s e lx ly Ex Ey Es) in Hp. discriminate.
    + destruct (nonempty_snoc (a :: ss)) as (front & st & E); [discriminate |].
      rewrite E in Es. rewrite (paint_last_snoc s e lx ly front st Ex Ey Es) in Hp.
      injection Hp as <-. rewrite E. cbn [strokes redo_stack moved_to set_last_x set_last_y
        set_strokes set_image].
      rewrite !length_app, !removelast_last, !last_last. cbn.
      repeat split. eexists. split; [| reflexivity]. cbn. lia.
  - rewrite paint_no_last in Hp by now right. injection Hp as <-.
    repeat split. exists []. cbn. split; [lia | now rewrite app_nil_r].
  - rewrite paint_no_last in Hp by now left. injection Hp as <-.
    repeat split. exists []. cbn. split; [lia | now rewrite app_nil_r].
Qed.

(** X11. The brush width follows the scale truncated to an integer: for
    a scale value between 4 and 12 the width is the integer part of the
    value, between 4 and 12, and nothing else in the state changes; what
    was drawn before keeps the width it was drawn with. *)
Theorem update_brush_truncates (s : app) (v : Q) :
  (4 <= v)%Q -> (v <= 12)%Q ->
  let s' := _update_brush s v in
  (4 <= line_width s' <= 12)%Z
  /\ (inject_Z (line_width s') <= v)%Q /\ (v < inject_Z (line_width s' + 1))%Q
  /\ strokes s' = strokes s /\ image s' = image s
  /\ s' = set_line_width s (line_width s').
Proof.
  intros Hlo Hhi. cbn zeta. unfold _update_brush. cbn [line_width set_line_width].
  destruct v as [n d]. unfold int, Qle, Qlt in *. cbn [Qnum Qden inject_Z] in *.
  assert (Hn : (0 <= n)%Z) by lia.
  rewrite Z.quot_div_nonneg by lia.
  pose proof (Z.div_mod n (Z.pos d) ltac:(lia)) as Hdm.
  pose proof (Z.mod_pos_bound n (Z.pos d) ltac:(lia)) as Hmb.
  set (k := (n / Z.pos d)%Z) in *.
  repeat split; try nia.
Qed.

End Sessions.

(** ** Ranking and recognition in the unified tool *)

Section TopFive.
Context `{Collaborators}.

Lemma StronglySorted_app_inv {A} (R : A -> A -> Prop) (l1 l2 : list A) :
  StronglySorted R (l1 ++ l2) ->
  StronglySorted R l1 /\ StronglySorted R l2
  /\ forall x y, In x l1 -> In y l2 -> R x y.
Proof.
  induction l1 as [| a l1 IH]; cbn [List.app]; intros Hs.
  - split; [constructor | split; [exact Hs | intros x y []]].
  - apply StronglySorted_inv in Hs as (Hs & Ha).
    destruct (IH Hs) as (H1 & H2 & H12). rewrite Forall_forall in Ha.
    split; [| split; [exact H2 |]].
    + constructor; [exact H1 |]. apply Forall_forall. intros x Hx.
      apply Ha. apply in_or_app. now left.
    + intros x y [<- | Hx] Hy; [| now apply H12].
      apply Ha. apply in_or_app. now right.
Qed.

Lemma StronglySorted_snoc {A} (R : A -> A -> Prop) (l : list A) (a : A) :
  StronglySorted R l -> (forall x, In x l -> R x a) -> StronglySorted R (l ++ [a]).
Proof.
  induction 1 as [| b l Hs IH Hb]; intros Ha; cbn [List.app].
  - repeat constructor.
  - constructor; [apply IH; intros x Hx; apply Ha; now right |].
    rewrite Forall_forall in *. intros x Hx. apply in_app_or in Hx as [Hx | [<- | []]].
    + now apply Hb.
    + apply Ha. now left.
Qed.

Lemma StronglySorted_rev {A} (R : A -> A -> Prop) (l : list A) :
  StronglySorted R l -> StronglySorted (fun a b => R b a) (rev l).
Proof.
  induction 1 as [| a l Hs IH Ha]; cbn [rev]; [constructor |].
  apply StronglySorted_snoc; [exact IH |].
  intros x Hx. apply in_rev in Hx. rewrite Forall_forall in Ha. now apply Ha.
Qed.

Lemma length_np_argsort (p : list Q) : length (np_argsort p) = length p.
Proof.
  transitivity (length (seq 0 (length p))); [| apply length_seq].
  apply Nat.le_antisymm.
  - apply NoDup_incl_length; [apply np_argsort_nodup |].
    intros x Hx. apply in_seq. apply np_argsort_indices in Hx. lia.
  - apply NoDup_incl_length; [apply seq_NoDup |].
    intros x Hx. apply in_seq in Hx. apply np_argsort_indices. lia.
Qed.

Lemma top_indices_basic (p : list Q) :
  length (top_indices p) = Nat.min 5 (length p)
  /\ forall i, In i (top_indices p) -> i < length p.
Proof.
  unfold top_indices. split.
  - now rewrite length_firstn, length_rev, length_np_argsort.
  - intros i Hi.
    assert (Hin : In i (rev (np_argsort p))).
    { rewrite <- (firstn_skipn 5 (rev (np_argsort p))). apply in_or_app. now left. }
    apply in_rev in Hin. now apply np_argsort_indices.
Qed.

(** X12. The top-5 listing really is the top five. [top_indices] returns
    min(5, N) distinct valid class indices in order of non-increasing
    probability, and no class left out has a probability above that of a
    class listed. *)
Theorem top_indices_are_the_top (probs : list Q) :
  let top := top_indices probs in
  length top = Nat.min 5 (length probs)
  /\ NoDup top
  /\ (forall i, In i top -> i < length probs)
  /\ StronglySorted (fun a b => nth b probs 0 <= nth a probs 0)%Q top
  /\ (forall k i, k < length probs -> ~ In k top -> In i top ->
        (nth k probs 0 <= nth i probs 0)%Q).
Proof.
  cbn zeta. unfold top_indices.
  pose proof (StronglySorted_rev _ _ (np_argsort_sorted probs)) as Hs.
  cbv beta in Hs.
  assert (Hin' : forall x, In x (rev (np_argsort probs)) <-> x < length probs).
  { intros x. rewrite <- in_rev. apply np_argsort_indices. }
  assert (Hlen : length (rev (np_argsort probs)) = length probs)
    by now rewrite length_rev, length_np_argsort.
  assert (Hnd : NoDup (rev (np_argsort probs))) by (apply NoDup_rev, np_argsort_nodup).
  set (l := rev (np_argsort probs)) in *.
  rewrite <- (firstn_skipn 5 l) in Hs, Hnd.
  apply StronglySorted_app_inv in Hs as (Htop & _ & Hcross).
  split; [| split; [| split; [| split]]].
  - now rewrite length_firstn, Hlen.
  - now apply NoDup_app_remove_r in Hnd.
  - intros i Hi. apply Hin'. rewrite <- (firstn_skipn 5 l). apply in_or_app. now left.
  - exact Htop.
  - intros k i Hk Hnot Hi. apply Hcross; [exact Hi |].
    apply Hin' in Hk. rewrite <- (firstn_skipn 5 l) in Hk.
    apply in_app_or in Hk as [Hk | Hk]; [contradiction | exact Hk].
Qed.

(** X13. The first row of the table and the headline always carry the
    same probability, the maximum of the vector, and the class of the
    first row is never below the headline class: they are the same class
    unless the maximum is tied. *)
Theorem first_row_has_headline_confidence (probs : list Q) :
  probs <> [] ->
  exists t a,
    hd_error (top_indices probs) = Some t /\ Np.argmax probs = Some a
    /\ a <= t < length probs
    /\ (nth t probs 0 == nth a probs 0)%Q
    /\ (forall k, k < length probs -> (nth k probs 0 <= nth a probs 0)%Q)
    /\ ((forall k, k < length probs -> k <> a -> (nth k probs 0 < nth a probs 0)%Q) ->
        t = a).
Proof.
  intros Hne.
  destruct (top_indices_head probs Hne) as (t & Ht & Htlen & Hdom).
  destruct (argmax_spec probs Hne) as (a & Ha & Halen & Hmax & Hfirst).
  exists t, a. split; [exact Ht | split; [exact Ha |]].
  assert (Hat : (nth a probs 0 <= nth t probs 0)%Q) by now apply Hdom.
  assert (Hle : a <= t).
  { destruct (Nat.le_gt_cases a t) as [Hl | Hg]; [exact Hl | exfalso].
    apply (Qlt_not_le _ _ (Hfirst t Hg)). exact Hat. }
  split; [lia | split; [| split; [exact Hmax |]]].
  - apply Qle_antisym; [now apply Hmax | exact Hat].
  - intros Huniq. destruct (Nat.eq_dec t a) as [E | Hneq]; [exact E | exfalso].
    apply (Qlt_not_le _ _ (Huniq t Htlen Hneq)). exact Hat.
Qed.

End TopFive.

Section Recognition.
Context `{Collaborators}.

Lemma fill_top_table_shape (probs : list Q) (idx : list nat) (s : app) :
  exists tt dg, fill_top_table s probs idx = set_dialogs (set_top_table s tt) dg.
Proof.
  revert s. induction idx as [| i idx IH]; intros s; cbn [fill_top_table].
  - exists (top_table s), (dialogs s). now destruct s.
  - destruct (nth_error (current_labels s) i) as [lbl |].
    + destruct (IH (set_top_table s (top_table s ++ [(display (current_language s) lbl,
                                                       nth i probs 0%Q)])))
        as (tt & dg & E).
      exists tt, dg. rewrite E. reflexivity.
    + exists (top_table s),
        (showerror "Error" (failure_text "Recognition failed" (label_error i))
           :: dialogs s).
      now destruct s.
Qed.

Lemma recognize_shape (s : app) :
  exists rl cb tt dg,
    recognize s
    = set_dialogs (set_top_table (set_conf_bar (set_result_label s rl) cb) tt) dg.
Proof.
  assert (Hid : forall dg, set_dialogs s dg
            = set_dialogs (set_top_table (set_conf_bar (set_result_label s (result_label s))
                                                       (conf_bar s)) (top_table s)) dg)
    by (intros dg; now destruct s).
  unfold recognize.
  destruct (negb (Np.any_lt255 (image s))); [do 4 eexists; apply Hid |].
  destruct (model_predict _ _) as [probs |]; [| do 4 eexists; apply Hid].
  destruct (Np.argmax probs) as [a |]; [| do 4 eexists; apply Hid].
  destruct (nth_error (current_labels s) a) as [lbl |]; [| do 4 eexists; apply Hid].
  match goal with |- context [fill_top_table ?u ?p ?i] =>
    destruct (fill_top_table_shape p i u) as (tt & dg & E); rewrite E
  end.
  do 4 eexists. reflexivity.
Qed.

(** X14. Recognition, whatever its outcome (warning, classifier error,
    missing label, success), changes nothing but the result label, the
    confidence bar, the table and the list of dialogs: the strokes, the
    redo stack, the image, the pointer, the brush, the mode, its label
    table and the language are as before, so the user can keep drawing or
    retry. *)
Theorem recognize_frame (s : app) :
  let r := recognize s in
  (strokes r = strokes s /\ redo_stack r = redo_stack s /\ image r = image s)
  /\ (last_x r = last_x s /\ last_y r = last_y s /\ line_width r = line_width s)
  /\ (current_mode r = current_mode s /\ current_labels r = current_labels s
      /\ current_language r = current_language s /\ mode_label r = mode_label s)
  /\ (canvas_size r = canvas_size s /\ model_inputs r = model_inputs s
      /\ mode_var r = mode_var s /\ lang_var r = lang_var s /\ auto_var r = auto_var s).
Proof.
  cbn zeta. destruct (recognize_shape s) as (rl & cb & tt & dg & ->).
  destruct s. cbn. auto 20.
Qed.

Lemma fill_top_table_all (probs : list Q) (idx : list nat) (s : app) :
  (forall i, In i idx -> i < length (current_labels s)) ->
  fill_top_table s probs idx
  = set_top_table s
      (top_table s
       ++ map (Gesture.row (current_language s) (current_labels s) probs) idx).
Proof.
  revert s. induction idx as [| i idx IH]; intros s Hall; cbn [fill_top_table map].
  - rewrite app_nil_r. now destruct s.
  - rewrite (nth_error_nth' _ (Plain "")) by (apply Hall; now left).
    rewrite IH by (intros j Hj; apply Hall; now right).
    cbn [top_table set_top_table current_language current_labels].
    rewrite <- app_assoc. reflexivity.
Qed.

Lemma fill_top_table_missing (probs : list Q) (pre post : list nat) (i : nat) (s : app) :
  (forall j, In j pre -> j < length (current_labels s)) ->
  length (current_labels s) <= i ->
  fill_top_table s probs (pre ++ i :: post)
  = recognition_failed
      (set_top_table s
         (top_table s
          ++ map (Gesture.row (current_language s) (current_labels s) probs) pre))
      (label_error i).
Proof.
  revert s. induction pre as [| j pre IH]; intros s Hall Hi;
    cbn [fill_top_table map List.app].
  - apply nth_error_None in Hi. rewrite Hi, app_nil_r. now destruct s.
  - rewrite (nth_error_nth' _ (Plain "")) by (apply Hall; now left).
    rewrite IH; [| intros k Hk; apply Hall; now right | exact Hi].
    cbn [top_table set_top_table current_language current_labels].
    rewrite <- app_assoc. reflexivity.
Qed.

(** X15. A successful recognition: with ink on the canvas, a non-empty
    probability vector from the classifier of the current mode and a label
    table at least as long, the headline is the label of the first
    maximum in the display language, the bar shows its probability times
    100 truncated, the table is rebuilt with one row per top index, in
    order, min(5, N) rows in all, and no dialog is shown. *)
Theorem recognize_success (s : app) (probs : list Q) :
  Np.any_lt255 (image s) = true ->
  model_predict (current_mode s) (_preprocess_for_model s) = Some probs ->
  probs <> [] ->
  length probs <= length (current_labels s) ->
  exists a,
    Np.argmax probs = Some a
    /\ recognize s
       = set_top_table
           (set_conf_bar
              (set_result_label s
                 (display (current_language s) (nth a (current_labels s) (Plain ""))))
              (int (nth a probs 0 * 100)%Q))
           (map (Gesture.row (current_language s) (current_labels s) probs)
                (top_indices probs))
    /\ length (top_table (recognize s)) = Nat.min 5 (length probs)
    /\ dialogs (recognize s) = dialogs s.
Proof.
  intros Hink Hm Hne Hlen.
  destruct (argmax_spec probs Hne) as (a & Ha & Halen & _).
  destruct (top_indices_basic probs) as (Htl & Htin).
  assert (E : recognize s
       = set_top_table
           (set_conf_bar
              (set_result_label s
                 (display (current_language s) (nth a (current_labels s) (Plain ""))))
              (int (nth a probs 0 * 100)%Q))
           (map (Gesture.row (current_language s) (current_labels s) probs)
                (top_indices probs))).
  { unfold recognize. rewrite Hink, Hm, Ha. cbn [negb].
    rewrite (nth_error_nth' _ (Plain "")) by lia.
    rewrite fill_top_table_all.
    - reflexivity.
    - intros i Hi. cbn [current_labels set_top_table set_conf_bar set_result_label].
      specialize (Htin i Hi). lia. }
  exists a. split; [exact Ha | split; [exact E |]]. rewrite E.
  cbn [top_table dialogs set_top_table set_conf_bar set_result_label].
  now rewrite length_map, Htl.
Qed.

End Recognition.

Section RecognitionFailures.
Context `{Collaborators}.

(** X16. With ink on the canvas, when the classifier raises, returns an
    empty vector, or the class of its maximum has no entry in the label
    table, recognition shows one error dialog, "Recognition failed:" and
    on the next line the message of the exception (the classifier's, the
    one of [np.argmax] on an empty array, the label table's), and leaves
    the result label, the confidence bar and the table exactly as they
    were. *)
Theorem recognize_failure_keeps_results (s : app) :
  Np.any_lt255 (image s) = true ->
  let x := _preprocess_for_model s in
  let out := model_predict (current_mode s) x in
  (out = None -> recognize s = recognition_failed s (predict_error (current_mode s) x))
  /\ (out = Some [] -> recognize s = recognition_failed s Np.argmax_empty_message)
  /\ (forall probs a,
        out = Some probs -> Np.argmax probs = Some a -> length (current_labels s) <= a ->
        recognize s = recognition_failed s (label_error a))
  /\ (forall message,
        dialogs (recognition_failed s message)
        = showerror "Error" (failure_text "Recognition failed" message) :: dialogs s
        /\ result_label (recognition_failed s message) = result_label s
        /\ conf_bar (recognition_failed s message) = conf_bar s
        /\ top_table (recognition_failed s message) = top_table s).
Proof.
  intros Hink. cbn zeta. unfold recognize. rewrite Hink. cbn [negb].
  split; [| split; [| split]].
  - intros ->. reflexivity.
  - intros ->. reflexivity.
  - intros probs a -> -> Ha. apply nth_error_None in Ha. now rewrite Ha.
  - intros message. repeat split.
Qed.

(** X17. A label table shorter than the probability vector can leave a
    half-updated display: if the class of the maximum has a label but some
    top index has none, the headline and the bar already show the new
    prediction, the table holds only the rows before the first index
    without label, and the error dialog carries the message of that
    failed lookup. *)
Theorem recognize_partial_results
        (s : app) (probs : list Q) (a i : nat) (pre post : list nat) :
  Np.any_lt255 (image s) = true ->
  model_predict (current_mode s) (_preprocess_for_model s) = Some probs ->
  Np.argmax probs = Some a ->
  a < length (current_labels s) ->
  top_indices probs = pre ++ i :: post ->
  (forall j, In j pre -> j < length (current_labels s)) ->
  length (current_labels s) <= i ->
  recognize s
  = recognition_failed
      (set_top_table
         (set_conf_bar
            (set_result_label s
               (display (current_language s) (nth a (current_labels s) (Plain ""))))
            (int (nth a probs 0 * 100)%Q))
         (map (Gesture.row (current_language s) (current_labels s) probs) pre))
      (label_error i).
Proof.
  intros Hink Hm Ha Halen Htop Hpre Hi.
  unfold recognize. rewrite Hink, Hm, Ha. cbn [negb].
  rewrite (nth_error_nth' _ (Plain "")) by exact Halen.
  rewrite Htop, fill_top_table_missing; [reflexivity | exact Hpre | exact Hi].
Qed.

Lemma int_percent_range (q : Q) :
  (0 <= q)%Q -> (q <= 1)%Q -> (0 <= int (q * 100) <= 100)%Z.
Proof.
  destruct q as [n d]. unfold Qle, int. cbn [Qnum Qden Qmult].
  rewrite !Z.mul_1_r, ?Z.mul_1_l. intros Hlo Hhi.
  rewrite Z.quot_div_nonneg by lia.
  split.
  - apply Z.div_pos; lia.
  - apply Z.div_le_upper_bound; lia.
Qed.

Lemma fill_top_table_conf_bar (probs : list Q) (idx : list nat) (s : app) :
  conf_bar (fill_top_table s probs idx) = conf_bar s.
Proof.
  destruct (fill_top_table_shape probs idx s) as (tt & dg & ->). reflexivity.
Qed.

(** X18. The confidence bar stays within its scale: if the classifier of
    the current mode only returns probabilities between 0 and 1 and the
    bar is within 0..100, it is still within 0..100 after recognition. *)
Theorem conf_bar_stays_in_range (s : app) :
  (0 <= conf_bar s <= 100)%Z ->
  (forall probs,
      model_predict (current_mode s) (_preprocess_for_model s) = Some probs ->
      Forall (fun q => 0 <= q /\ q <= 1)%Q probs) ->
  (0 <= conf_bar (recognize s) <= 100)%Z.
Proof.
  intros Hbar Hprobs. unfold recognize.
  destruct (negb (Np.any_lt255 (image s))); [exact Hbar |].
  destruct (model_predict _ _) as [probs |] eqn:Hm; [| exact Hbar].
  specialize (Hprobs probs eq_refl).
  destruct probs as [| v q] eqn:Ep; [exact Hbar |]. rewrite <- Ep in *.
  destruct (argmax_spec probs) as (a & Ha & Halen & _); [rewrite Ep; discriminate |].
  rewrite Ha.
  destruct (nth_error (current_labels s) a); [| exact Hbar].
  rewrite fill_top_table_conf_bar. cbn [conf_bar set_top_table set_conf_bar].
  rewrite Forall_forall in Hprobs.
  destruct (Hprobs (nth a probs 0%Q)) as (Hlo & Hhi); [now apply nth_In |].
  now apply int_percent_range.
Qed.

End RecognitionFailures.

(** ** More on the normaliser *)

Section Contrast.

Lemma clip_unit_range (v : Q) :
  (0 <= Normalizer.clip v 0 1)%Q /\ (Normalizer.clip v 0 1 <= 1)%Q.
Proof.
  unfold Normalizer.clip.
  destruct (Np.Qlt_bool v 0) eqn:E0; [split; [apply Qle_refl | discriminate] |].
  apply Qlt_bool_false_iff in E0.
  destruct (Np.Qlt_bool 1 v) eqn:E1; [split; [discriminate | apply Qle_refl] |].
  apply Qlt_bool_false_iff in E1. auto.
Qed.

(** The facts of X19 at one grey level, as a check that can be run. *)
Definition tone_facts (n : nat) : bool :=
  let p := Z.of_nat n in
  let t := Normalizer.tone p in
  (if (p <=? 42)%Z then Qeq_bool t 1
   else Qeq_bool t (Np.f32 (Np.f32 (inject_Z (255 - p) / 255) * Np.f32 (12 # 10)))
        && Np.Qlt_bool t 1)
  && forallb (fun m => Qle_bool (Normalizer.tone (Z.of_nat m)) t) (seq n (256 - n)).

Lemma tone_facts_all : forallb tone_facts (seq 0 256) = true.
Proof. vm_compute. reflexivity. Qed.

(** X19. The contrast step saturates. A resized pixel of grey level 42
    or darker becomes exactly 1; from 43 to 255 it becomes the float32
    product of the float32 quotient (255 - p) / 255 and the float32
    nearest to 1.2, strictly below 1 and not clipped, reaching 0 at the
    background value; darker pixels never get a lower value than lighter
    ones. *)
Theorem tone_saturates (p : Z) :
  (0 <= p <= 255)%Z ->
  ((p <= 42)%Z -> (Normalizer.tone p == 1)%Q)
  /\ ((43 <= p)%Z ->
        (Normalizer.tone p
         == Np.f32 (Np.f32 (inject_Z (255 - p) / 255) * Np.f32 (12 # 10)))%Q
        /\ (Normalizer.tone p < 1)%Q)
  /\ (Normalizer.tone 255 == 0)%Q
  /\ (forall q, (p <= q <= 255)%Z -> (Normalizer.tone q <= Normalizer.tone p)%Q).
Proof.
  intros Hp.
  pose proof tone_facts_all as Hall. rewrite forallb_forall in Hall.
  specialize (Hall (Z.to_nat p)).
  rewrite in_seq in Hall. specialize (Hall ltac:(lia)).
  unfold tone_facts in Hall. cbv zeta in Hall.
  rewrite Z2Nat.id in Hall by lia.
  apply andb_true_iff in Hall as (Hval & Hmono).
  split; [| split; [| split]].
  - intros Hle. apply Z.leb_le in Hle. rewrite Hle in Hval.
    now apply Qeq_bool_iff.
  - intros Hge. destruct (p <=? 42)%Z eqn:E; [apply Z.leb_le in E; lia |].
    apply andb_true_iff in Hval as (Heq & Hlt).
    split; [now apply Qeq_bool_iff | now apply Qlt_bool_iff].
  - vm_compute. reflexivity.
  - intros q Hq. rewrite forallb_forall in Hmono.
    specialize (Hmono (Z.to_nat q)). rewrite in_seq in Hmono.
    specialize (Hmono ltac:(lia)). rewrite Z2Nat.id in Hmono by lia.
    now apply Qle_bool_iff.
Qed.

End Contrast.

Section TensorRange.
Context `{Collaborators}.

Lemma length_concat_uniform {A} (im : list (list A)) (n : nat) :
  Forall (fun row => length row = n) im -> length (concat im) = length im * n.
Proof.
  induction 1 as [| row im Hrow Hrows IH]; [reflexivity |].
  cbn [concat length]. rewrite length_app, IH, Hrow. cbn. lia.
Qed.

Lemma blank_branch_entries (s : app) :
  Np.any_lt255 (image s) = false ->
  Np.shape (_preprocess_for_model s)
  = [1; model_inputs s (current_mode s); model_inputs s (current_mode s); 1]
  /\ Forall (fun v => v == 1)%Q (Np.data (_preprocess_for_model s)).
Proof.
  intros Hblank. unfold _preprocess_for_model. rewrite Hblank.
  cbn [negb Np.map_data Np.reshape Np.array Np.shape Np.data].
  split; [reflexivity |].
  rewrite map_map. unfold Img.Image_new, Img.mk_image.
  apply Forall_map. apply Forall_concat_rows. reflexivity.
Qed.

(** X20. Whatever the resampler returns, the tensor handed to the
    classifier has shape (1, n, n, 1) for the input size n of the current
    mode and every entry lies between 0 and 1; when the resampler returns
    n rows of n pixels, as asked, there are n * n entries. *)
Theorem normalized_tensor_range (s : app) :
  let n := model_inputs s (current_mode s) in
  let t := _preprocess_for_model s in
  Np.shape t = [1; n; n; 1]
  /\ Forall (fun v => 0 <= v /\ v <= 1)%Q (Np.data t)
  /\ (forall resized,
        Np.any_lt255 (image s) = true ->
        resized = Image_resize
                    (Normalizer.squared (Normalizer.padded (Normalizer.cropped (image s))))
                    n n LANCZOS ->
        length resized = n -> Forall (fun row => length row = n) resized ->
        length (Np.data t) = n * n).
Proof.
  cbn zeta. destruct (Np.any_lt255 (image s)) eqn:Hink.
  - split; [| split].
    + unfold _preprocess_for_model. rewrite Hink. reflexivity.
    + rewrite (ink_branch_data s Hink). apply Forall_forall. intros v Hv.
      apply in_map_iff in Hv as (p & <- & _). apply clip_unit_range.
    + intros resized _ -> Hrows Hcols. rewrite (ink_branch_data s Hink), length_map.
      now rewrite (length_concat_uniform _ _ Hcols), Hrows.
  - destruct (blank_branch_entries s Hink) as (Hshape & Hall).
    split; [exact Hshape | split].
    + eapply Forall_impl; [| exact Hall]. cbv beta. intros v Hv. rewrite Hv.
      split; discriminate.
    + intros resized Habs. discriminate.
Qed.

End TensorRange.

Section SquareCanvas.

Lemma squared_layout (canvas : Img.image) :
  let cw := Img.width canvas in
  let ch := Img.height canvas in
  let side := Nat.max cw ch in
  let ox := (side - cw) / 2 in
  let oy := (side - ch) / 2 in
  Img.size (Normalizer.squared canvas) = (side, side)
  /\ (forall x y, x < side -> y < side ->
        Img.getpixel (Normalizer.squared canvas) x y
        = if (ox <=? x) && (x <? ox + cw) && (oy <=? y) && (y <? oy + ch)
          then Img.getpixel canvas (x - ox) (y - oy)
          else 255%Z).
Proof.
  cbn zeta. unfold Normalizer.squared, Img.size.
  set (side := Nat.max (Img.width canvas) (Img.height canvas)).
  assert (Hbase : Img.size (Img.Image_new side side 255) = (side, side)).
  { destruct side as [| k]; [reflexivity | apply size_mk_image; lia]. }
  pose proof (f_equal fst Hbase) as Hbw. pose proof (f_equal snd Hbase) as Hbh.
  cbn [fst snd Img.size] in Hbw, Hbh.
  split.
  - change (Img.width (Img.paste ?b ?s ?x ?y), Img.height (Img.paste ?b ?s ?x ?y))
      with (Img.size (Img.paste b s x y)).
    now rewrite size_paste.
  - intros x y Hx Hy.
    rewrite getpixel_paste by (rewrite ?Hbw, ?Hbh; assumption).
    destruct (_ && _); [reflexivity |].
    unfold Img.Image_new. now rewrite getpixel_mk_image.
Qed.

(** X21. What the classifier gets to see, before resampling: for a
    canvas with ink whose bounding box is w x h, a square of side
    max(w, h) + 2m with m = max(w, h) div 5, white except for the
    bounding box of the canvas copied pixel for pixel at offset (X0, Y0).
    The box is centred: on each axis the margins before and after it
    differ by at most one pixel and are at least m. *)
Theorem square_shows_the_ink_box_centred (img : Img.image) :
  Np.any_lt255 img = true ->
  let '(x1, x2, y1, y2) := Normalizer.ink_bbox img in
  let w := x2 + 1 - x1 in
  let h := y2 + 1 - y1 in
  let m := Nat.max w h / 5 in
  let side := Nat.max w h + 2 * m in
  let X0 := m + (side - (w + 2 * m)) / 2 in
  let Y0 := m + (side - (h + 2 * m)) / 2 in
  let square := Normalizer.squared (Normalizer.padded (Normalizer.cropped img)) in
  Img.size square = (side, side)
  /\ (m <= X0 /\ X0 <= side - w - X0 <= X0 + 1)
  /\ (m <= Y0 /\ Y0 <= side - h - Y0 <= Y0 + 1)
  /\ (forall x y, x < side -> y < side ->
        Img.getpixel square x y
        = if (X0 <=? x) && (x <? X0 + w) && (Y0 <=? y) && (y <? Y0 + h)
          then Img.getpixel img (x1 + (x - X0)) (y1 + (y - Y0))
          else 255%Z).
Proof.
  intros _.
  pose proof (size_cropped img) as Hsize.
  pose proof (fun x y => getpixel_cropped img x y) as Hpix.
  pose proof (padded_layout (Normalizer.cropped img)) as Hpad.
  pose proof (squared_layout (Normalizer.padded (Normalizer.cropped img))) as Hsq.
  destruct (Normalizer.ink_bbox img) as [[[x1 x2] y1] y2].
  destruct Hsize as (Hx12 & Hy12 & Hsize).
  pose proof (f_equal fst Hsize) as Hw. pose proof (f_equal snd Hsize) as Hh.
  cbn [fst snd Img.size] in Hw, Hh. cbn zeta in Hpad, Hsq. rewrite Hw, Hh in Hpad.
  destruct Hpad as (Hpsize & Hppix).
  pose proof (f_equal fst Hpsize) as Hpw. pose proof (f_equal snd Hpsize) as Hph.
  cbn [fst snd Img.size] in Hpw, Hph. rewrite Hpw, Hph in Hsq.
  unfold Normalizer.padding_margin in *.
  set (w := x2 + 1 - x1) in *. set (h := y2 + 1 - y1) in *.
  set (m := Nat.max w h / 5) in *.
  assert (Hside : Nat.max (w + 2 * m) (h + 2 * m) = Nat.max w h + 2 * m) by lia.
  rewrite Hside in Hsq. destruct Hsq as (Hssize & Hspix).
  cbn zeta.
  set (side := Nat.max w h + 2 * m) in *.
  set (dx := (side - (w + 2 * m)) / 2) in *.
  set (dy := (side - (h + 2 * m)) / 2) in *.
  assert (Hdx : 2 * dx <= side - (w + 2 * m) <= 2 * dx + 1).
  { unfold dx. pose proof (Nat.div_mod_eq (side - (w + 2 * m)) 2).
    pose proof (Nat.mod_upper_bound (side - (w + 2 * m)) 2). lia. }
  assert (Hdy : 2 * dy <= side - (h + 2 * m) <= 2 * dy + 1).
  { unfold dy. pose proof (Nat.div_mod_eq (side - (h + 2 * m)) 2).
    pose proof (Nat.mod_upper_bound (side - (h + 2 * m)) 2). lia. }
  assert (Hwside : w + 2 * m <= side /\ h + 2 * m <= side) by (unfold side; lia).
  split; [exact Hssize | split; [lia | split; [lia |]]].
  intros x y Hx Hy. rewrite (Hspix x y Hx Hy).
  destruct ((dx <=? x) && (x <? dx + (w + 2 * m)) && (dy <=? y) && (y <? dy + (h + 2 * m)))
    eqn:Ein.
  - apply andb_prop in Ein as (Ein & Ey2). apply andb_prop in Ein as (Ein & Ey1).
    apply andb_prop in Ein as (Ex1 & Ex2).
    apply Nat.leb_le in Ex1, Ey1. apply Nat.ltb_lt in Ex2, Ey2.
    rewrite Hppix by lia.
    destruct ((m <=? x - dx) && (x - dx <? m + w) && (m <=? y - dy) && (y - dy <? m + h))
      eqn:Ebox.
    + apply andb_prop in Ebox as (Ebox & Fy2). apply andb_prop in Ebox as (Ebox & Fy1).
      apply andb_prop in Ebox as (Fx1 & Fx2).
      apply Nat.leb_le in Fx1, Fy1. apply Nat.ltb_lt in Fx2, Fy2.
      replace ((m + dx <=? x) && (x <? m + dx + w) && (m + dy <=? y) && (y <? m + dy + h))
        with true.
      * rewrite Hpix by lia. f_equal; lia.
      * symmetry. rewrite !andb_true_iff, !Nat.leb_le, !Nat.ltb_lt. lia.
    + replace ((m + dx <=? x) && (x <? m + dx + w) && (m + dy <=? y) && (y <? m + dy + h))
        with false; [reflexivity |].
      symmetry. apply not_true_is_false. intros Ht.
      rewrite !andb_true_iff, !Nat.leb_le, !Nat.ltb_lt in Ht.
      apply not_true_iff_false in Ebox. apply Ebox.
      rewrite !andb_true_iff, !Nat.leb_le, !Nat.ltb_lt. lia.
  - replace ((m + dx <=? x) && (x <? m + dx + w) && (m + dy <=? y) && (y <? m + dy + h))
      with false; [reflexivity |].
    symmetry. apply not_true_is_false. intros Ht.
    rewrite !andb_true_iff, !Nat.leb_le, !Nat.ltb_lt in Ht.
    apply not_true_iff_false in Ein. apply Ein.
    rewrite !andb_true_iff, !Nat.leb_le, !Nat.ltb_lt. lia.
Qed.

End SquareCanvas.

Section Translation.
Context `{Collaborators}.

Lemma rectangular_rows (img : Img.image) (y : nat) :
  Canvas.rectangular img = true -> y < Img.height img ->
  length (nth y img []) = Img.width img.
Proof.
  unfold Canvas.rectangular. intros Hrect Hy. rewrite forallb_forall in Hrect.
  apply Nat.eqb_eq. apply Hrect. now apply nth_In.
Qed.

Lemma is_ink_any (img : Img.image) (x y : nat) :
  Normalizer.is_ink img x y -> Np.any_lt255 img = true.
Proof.
  intros (Hy & Hx & Hv). unfold Np.any_lt255. apply existsb_exists.
  exists (nth y img []). split; [now apply nth_In |].
  apply existsb_exists. exists (nth x (nth y img []) 0%Z).
  split; [now apply nth_In | now apply Z.ltb_lt].
Qed.

Lemma is_ink_mk_image (w h : nat) (f : nat -> nat -> Z) (x y : nat) :
  Normalizer.is_ink (Img.mk_image w h f) x y <-> (y < h /\ x < w /\ (f x y < 255)%Z).
Proof.
  unfold Normalizer.is_ink. split.
  - intros (Hy & Hx & Hv). fold (Img.height (Img.mk_image w h f)) in Hy.
    rewrite height_mk_image in Hy.
    assert (Hw : x < w).
    { unfold Img.mk_image in Hx.
      rewrite nth_indep with (d' := map (fun x => f x 0) (seq 0 w)) in Hx
        by now rewrite length_map, length_seq.
      rewrite (map_nth (fun y => map (fun x => f x y) (seq 0 w)) (seq 0 h) 0 y) in Hx.
      now rewrite length_map, length_seq in Hx. }
    rewrite getpixel_mk_image in Hv by assumption. auto.
  - intros (Hy & Hx & Hv). fold (Img.height (Img.mk_image w h f)).
    rewrite height_mk_image, getpixel_mk_image by assumption.
    split; [exact Hy | split; [| exact Hv]].
    unfold Img.mk_image.
    rewrite nth_indep with (d' := map (fun x => f x 0) (seq 0 w))
      by now rewrite length_map, length_seq.
    rewrite (map_nth (fun y => map (fun x => f x y) (seq 0 w)) (seq 0 h) 0 y).
    now rewrite length_map, length_seq.
Qed.

Lemma is_ink_rectangular (img : Img.image) (x y : nat) :
  Canvas.rectangular img = true ->
  (Normalizer.is_ink img x y
   <-> y < Img.height img /\ x < Img.width img /\ (Img.getpixel img x y < 255)%Z).
Proof.
  intros Hrect. unfold Normalizer.is_ink. fold (Img.height img). split.
  - intros (Hy & Hx & Hv). rewrite (rectangular_rows img y Hrect Hy) in Hx. auto.
  - intros (Hy & Hx & Hv). rewrite (rectangular_rows img y Hrect Hy). auto.
Qed.

Lemma is_ink_moved (img : Img.image) (dx dy x y : nat) :
  Canvas.rectangular img = true ->
  (Normalizer.is_ink (Canvas.moved img dx dy) x y
   <-> dx <= x /\ dy <= y /\ x < Img.width img /\ y < Img.height img
       /\ Normalizer.is_ink img (x - dx) (y - dy)).
Proof.
  intros Hrect. unfold Canvas.moved. rewrite is_ink_mk_image, (is_ink_rectangular _ _ _ Hrect).
  destruct (dx <=? x) eqn:Ex; destruct (dy <=? y) eqn:Ey; cbn [andb];
    try apply Nat.leb_le in Ex; try apply Nat.leb_le in Ey;
    try apply Nat.leb_gt in Ex; try apply Nat.leb_gt in Ey;
    split; intros Hh; lia.
Qed.

Lemma mk_image_ext (w h : nat) (f g : nat -> nat -> Z) :
  (forall x y, x < w -> y < h -> f x y = g x y) -> Img.mk_image w h f = Img.mk_image w h g.
Proof.
  intros Hfg. unfold Img.mk_image. apply map_ext_in. intros y Hy. apply in_seq in Hy.
  apply map_ext_in. intros x Hx. apply in_seq in Hx. apply Hfg; lia.
Qed.

Lemma moved_bbox (img : Img.image) (dx dy : nat) :
  Canvas.rectangular img = true -> Np.any_lt255 img = true ->
  let '(x1, x2, y1, y2) := Normalizer.ink_bbox img in
  x2 + dx < Img.width img -> y2 + dy < Img.height img ->
  Normalizer.ink_bbox (Canvas.moved img dx dy) = (x1 + dx, x2 + dx, y1 + dy, y2 + dy).
Proof.
  intros Hrect Hink.
  pose proof (ink_bbox_tight img Hink) as Ht.
  pose proof (fun x y => is_ink_moved img dx dy x y Hrect) as Hm.
  destruct (Normalizer.ink_bbox img) as [[[x1 x2] y1] y2].
  destruct Ht as (Hbox & (ya & Hx1) & (yb & Hx2) & (xa & Hy1) & (xb & Hy2)).
  intros Hfx Hfy.
  assert (Hto : forall x y, Normalizer.is_ink img x y ->
                  Normalizer.is_ink (Canvas.moved img dx dy) (x + dx) (y + dy)).
  { intros x y Hi. apply Hm. specialize (Hbox x y Hi).
    replace (x + dx - dx) with x by lia. replace (y + dy - dy) with y by lia.
    split; [lia | split; [lia | split; [lia | split; [lia | exact Hi]]]]. }
  assert (Hink' : Np.any_lt255 (Canvas.moved img dx dy) = true)
    by (eapply is_ink_any; apply (Hto _ _ Hx1)).
  pose proof (ink_bbox_tight _ Hink') as Ht'.
  destruct (Normalizer.ink_bbox (Canvas.moved img dx dy)) as [[[a1 a2] b1] b2].
  destruct Ht' as (Hbox' & (ya' & Ha1) & (yb' & Ha2) & (xa' & Hb1) & (xb' & Hb2)).
  pose proof (Hbox' _ _ (Hto _ _ Hx1)). pose proof (Hbox' _ _ (Hto _ _ Hx2)).
  pose proof (Hbox' _ _ (Hto _ _ Hy1)). pose proof (Hbox' _ _ (Hto _ _ Hy2)).
  apply Hm in Ha1 as (? & ? & ? & ? & Ha1). apply Hbox in Ha1.
  apply Hm in Ha2 as (? & ? & ? & ? & Ha2). apply Hbox in Ha2.
  apply Hm in Hb1 as (? & ? & ? & ? & Hb1). apply Hbox in Hb1.
  apply Hm in Hb2 as (? & ? & ? & ? & Hb2). apply Hbox in Hb2.
  repeat f_equal; lia.
Qed.

(** X22. The tensor does not depend on where the character sits on the
    canvas. Moving the drawing right and down, as long as its ink stays on
    the canvas, moves the bounding box by the same amount and gives the
    same crop, hence the same tensor for the classifier. *)
Theorem normalization_ignores_position (s : app) (dx dy : nat) :
  Canvas.rectangular (image s) = true -> Np.any_lt255 (image s) = true ->
  let '(x1, x2, y1, y2) := Normalizer.ink_bbox (image s) in
  x2 + dx < Img.width (image s) -> y2 + dy < Img.height (image s) ->
  Normalizer.ink_bbox (Canvas.moved (image s) dx dy) = (x1 + dx, x2 + dx, y1 + dy, y2 + dy)
  /\ Normalizer.cropped (Canvas.moved (image s) dx dy) = Normalizer.cropped (image s)
  /\ _preprocess_for_model (set_image s (Canvas.moved (image s) dx dy))
     = _preprocess_for_model s.
Proof.
  intros Hrect Hink.
  pose proof (moved_bbox (image s) dx dy Hrect Hink) as Hb.
  pose proof (ink_bbox_tight (image s) Hink) as Ht.
  pose proof (size_cropped (image s)) as Hsz.
  unfold Normalizer.cropped.
  destruct (Normalizer.ink_bbox (image s)) as [[[x1 x2] y1] y2] eqn:Ebox.
  intros Hfx Hfy. specialize (Hb Hfx Hfy). destruct Hsz as (Hx12 & Hy12 & _).
  assert (Hcrop : Normalizer.cropped (Canvas.moved (image s) dx dy)
                  = Normalizer.cropped (image s)).
  { unfold Normalizer.cropped. rewrite Hb, Ebox. unfold Img.crop.
    replace (x2 + dx + 1 - (x1 + dx)) with (x2 + 1 - x1) by lia.
    replace (y2 + dy + 1 - (y1 + dy)) with (y2 + 1 - y1) by lia.
    apply mk_image_ext. intros x y Hx Hy. unfold Canvas.moved.
    rewrite getpixel_mk_image by lia.
    replace (dx <=? x1 + dx + x) with true by (symmetry; apply Nat.leb_le; lia).
    replace (dy <=? y1 + dy + y) with true by (symmetry; apply Nat.leb_le; lia).
    cbn [andb]. f_equal; lia. }
  split; [exact Hb | split].
  - unfold Normalizer.cropped in Hcrop. rewrite Hb, Ebox in Hcrop. rewrite Hb. exact Hcrop.
  - destruct Ht as (Hbox & (ya & Hx1) & _).
    assert (Hink' : Np.any_lt255 (Canvas.moved (image s) dx dy) = true).
    { eapply is_ink_any. apply (is_ink_moved _ dx dy (x1 + dx) (ya + dy) Hrect).
      pose proof (proj1 (is_ink_rectangular _ _ _ Hrect) Hx1) as (Hya & _).
      specialize (Hbox _ _ Hx1).
      replace (x1 + dx - dx) with x1 by lia. replace (ya + dy - dy) with ya by lia.
      split; [lia | split; [lia | split; [lia | split; [lia | exact Hx1]]]]. }
    unfold _preprocess_for_model.
    cbn [image current_mode model_inputs set_image]. rewrite Hink', Hink, Hcrop.
    reflexivity.
Qed.

End Translation.

(** ** Language and mode in the unified tool *)

Section LanguageAndMode.
Context `{Collaborators}.

Lemma change_language_eq (s : app) :
  let lang := if String.eqb (lang_var s) "English" then en else jp in
  change_language s
  = mk_app (current_mode s) (current_labels s) lang (canvas_size s) (model_inputs s)
      (line_width s) (last_x s) (last_y s) (image s) (strokes s) (redo_stack s)
      (mode_var s) (lang_var s) (auto_var s)
      match lang with
      | en => "Please draw a character"
      | jp => "文字を描いてください"
      end
      0%Z
      match lang with
      | en => String.append "Current mode: " (mode_name_capitalized (current_mode s))
      | jp => String.append "現在のモード: " (mode_name (current_mode s))
      end
      [] (dialogs s).
Proof.
  destruct s as [cm cl lg cs mi lw lx ly im ss rs mv lv av rl cb ml tt dg].
  cbn zeta. unfold change_language, _reset_results.
  cbn [lang_var current_language current_mode set_current_language set_result_label
       set_mode_label set_conf_bar set_top_table].
  destruct (String.eqb lv "English"); reflexivity.
Qed.

(** X23. Switching the display language reads the combo box: "English"
    selects English and every other value Japanese. It keeps the drawing
    side (strokes, redo stack, image, pointer, brush), the mode and its
    label table; it rewrites the mode caption and resets the results to
    the prompt in the new language with an empty bar and table. Doing it
    twice is the same as once. *)
Theorem change_language_effect (s : app) :
  let s' := change_language s in
  current_language s' = (if String.eqb (lang_var s) "English" then en else jp)
  /\ ink_state s' = ink_state s
  /\ (current_mode s' = current_mode s /\ current_labels s' = current_labels s
      /\ mode_var s' = mode_var s /\ lang_var s' = lang_var s
      /\ dialogs s' = dialogs s)
  /\ (result_label s'
      = (if String.eqb (lang_var s) "English"
         then "Please draw a character" else "文字を描いてください")
      /\ conf_bar s' = 0%Z /\ top_table s' = [])
  /\ change_language s' = s'.
Proof.
  cbn zeta. rewrite (change_language_eq (change_language s)).
  rewrite (change_language_eq s). cbn zeta.
  cbn [current_mode current_labels current_language canvas_size model_inputs line_width
       last_x last_y image strokes redo_stack mode_var lang_var auto_var result_label
       conf_bar mode_label top_table dialogs ink_state].
  destruct (String.eqb (lang_var s) "English");
    (split; [reflexivity |]); (split; [reflexivity |]);
    (split; [repeat split |]); (split; [repeat split |]); reflexivity.
Qed.

(** X24. The mode caption depends on which handler wrote it. In English
    the language switch and the mode switch write the same caption; in
    Japanese the mode switch writes the native name of the family, while
    the language switch writes the internal mode name ("hiragana", ...)
    after the Japanese prefix, so the two captions differ for every
    mode. *)
Theorem japanese_caption_shows_internal_name (s : app) :
  let s' := change_language s in
  let by_mode_switch := mode_label (change_mode (set_mode_var s' (current_mode s'))) in
  (current_language s' = en -> mode_label s' = by_mode_switch)
  /\ (current_language s' = jp ->
        mode_label s' = String.append "現在のモード: " (mode_name (current_mode s))
        /\ mode_label s' <> by_mode_switch).
Proof.
  cbn zeta. rewrite (change_language_eq s). cbn zeta.
  cbn [current_mode current_language mode_label set_mode_var].
  destruct (String.eqb (lang_var s) "English"); split; intros E; try discriminate E.
  - destruct (current_mode s); reflexivity.
  - split; [reflexivity |]. destruct (current_mode s); cbn; discriminate.
Qed.

(** X25. Of two mode selections in a row only the second counts: the
    state after selecting one family and then another is the state after
    selecting the second alone, and selecting the same family again
    changes nothing. *)
Theorem select_mode_last_wins (s : app) (m1 m2 : mode) :
  change_mode (set_mode_var (change_mode (set_mode_var s m1)) m2)
  = change_mode (set_mode_var s m2)
  /\ change_mode (change_mode (set_mode_var s m1)) = change_mode (set_mode_var s m1).
Proof.
  destruct s as [cm cl lg cs mi lw lx ly im ss rs mv lv av rl cb ml tt dg].
  split; destruct m1, m2, lg; reflexivity.
Qed.

End LanguageAndMode.

(** ** The single-family tools *)

Section SingleFamily.
Context `{Collaborators}.

(** X26. In the hiragana and the two-family tool a motion event draws a
    segment from the last position only if both its coordinates are set
    and different from 0: the first motion after a release draws nothing,
    and neither does a motion whose last position lies on the left or top
    edge (coordinate 0), which the truth test takes for "no position".
    The position of the event is recorded in every case. *)
Theorem paint_needs_nonzero_last (e : event) :
  (forall s : HiraganaGui.app,
      (HiraganaGui.last_x (HiraganaGui.paint s e) = Some (ev_x e)
       /\ HiraganaGui.last_y (HiraganaGui.paint s e) = Some (ev_y e))
      /\ (forall lx ly,
             HiraganaGui.last_x s = Some lx -> HiraganaGui.last_y s = Some ly ->
             lx <> 0%Z -> ly <> 0%Z ->
             HiraganaGui.drawing (HiraganaGui.paint s e)
             = ImageDraw_line (HiraganaGui.drawing s) (lx, ly, ev_x e, ev_y e) 0
                              (HiraganaGui.line_width s))
      /\ (HiraganaGui.last_x s = None \/ HiraganaGui.last_y s = None
          \/ HiraganaGui.last_x s = Some 0%Z \/ HiraganaGui.last_y s = Some 0%Z ->
          HiraganaGui.drawing (HiraganaGui.paint s e) = HiraganaGui.drawing s)
      /\ (forall e0, HiraganaGui.drawing (HiraganaGui.paint (HiraganaGui.reset s e0) e)
                     = HiraganaGui.drawing s))
  /\ (forall s : KatakanaGui.app,
      (KatakanaGui.last_x (KatakanaGui.paint s e) = Some (ev_x e)
       /\ KatakanaGui.last_y (KatakanaGui.paint s e) = Some (ev_y e))
      /\ (forall lx ly,
             KatakanaGui.last_x s = Some lx -> KatakanaGui.last_y s = Some ly ->
             lx <> 0%Z -> ly <> 0%Z ->
             KatakanaGui.image (KatakanaGui.paint s e)
             = ImageDraw_line (KatakanaGui.image s) (lx, ly, ev_x e, ev_y e) 0
                              (KatakanaGui.line_width s))
      /\ (KatakanaGui.last_x s = None \/ KatakanaGui.last_y s = None
          \/ KatakanaGui.last_x s = Some 0%Z \/ KatakanaGui.last_y s = Some 0%Z ->
          KatakanaGui.image (KatakanaGui.paint s e) = KatakanaGui.image s)
      /\ (forall e0, KatakanaGui.image (KatakanaGui.paint (KatakanaGui.reset s e0) e)
                     = KatakanaGui.image s)).
Proof.
  split; intros s; (split; [split; reflexivity | split; [| split; [| reflexivity]]]).
  - intros lx ly Ex Ey Hx Hy. unfold HiraganaGui.paint. rewrite Ex, Ey.
    cbn. apply Z.eqb_neq in Hx, Hy. now rewrite Hx, Hy.
  - unfold HiraganaGui.paint, HiraganaGui.truthy.
    destruct (HiraganaGui.last_x s) as [zx |], (HiraganaGui.last_y s) as [zy |];
      intros [E | [E | [E | E]]]; try discriminate E; try reflexivity;
      injection E as ->; cbn; try reflexivity; destruct (zx =? 0)%Z; reflexivity.
  - intros lx ly Ex Ey Hx Hy. unfold KatakanaGui.paint. rewrite Ex, Ey.
    cbn. apply Z.eqb_neq in Hx, Hy. now rewrite Hx, Hy.
  - unfold KatakanaGui.paint, HiraganaGui.truthy.
    destruct (KatakanaGui.last_x s) as [zx |], (KatakanaGui.last_y s) as [zy |];
      intros [E | [E | [E | E]]]; try discriminate E; try reflexivity;
      injection E as ->; cbn; try reflexivity; destruct (zx =? 0)%Z; reflexivity.
Qed.

(** X27. [predict] of the hiragana tool never touches the drawing, the
    pointer, the brush or the instruction. When the classifier raises,
    returns nothing, or is confident about a class that has no label, it
    shows one error dialog, "Prediction failed:" and on the next line the
    message of the exception (the classifier's, the one of [np.argmax] on
    an empty array, the label table's), and leaves the result text and
    colour as they were; when it is not confident the label table is not
    consulted at all. *)
Theorem hiragana_predict_failures (s : HiraganaGui.app) :
  let r := HiraganaGui.predict s in
  let out := model_predict hiragana (HiraganaGui.preprocess (HiraganaGui.drawing s)) in
  (HiraganaGui.drawing r = HiraganaGui.drawing s
   /\ HiraganaGui.last_x r = HiraganaGui.last_x s
   /\ HiraganaGui.last_y r = HiraganaGui.last_y s
   /\ HiraganaGui.line_width r = HiraganaGui.line_width s
   /\ HiraganaGui.instruction r = HiraganaGui.instruction s)
  /\ (out = None ->
      r = HiraganaGui.prediction_failed s
            (predict_error hiragana (HiraganaGui.preprocess (HiraganaGui.drawing s))))
  /\ (out = Some [] -> r = HiraganaGui.prediction_failed s Np.argmax_empty_message)
  /\ (forall probs idx conf,
        out = Some probs -> Np.argmax probs = Some idx -> Np.max probs = Some conf ->
        ((85 # 100 <= conf)%Q -> nth_error hiragana_labels idx = None ->
           r = HiraganaGui.prediction_failed s (label_error idx))
        /\ ((conf < 85 # 100)%Q ->
           r = HiraganaGui.set_result s HiraganaGui.Not_recognized "red"))
  /\ (forall message,
        HiraganaGui.dialogs (HiraganaGui.prediction_failed s message)
        = showerror "Error" (failure_text "Prediction failed" message)
            :: HiraganaGui.dialogs s
        /\ HiraganaGui.result (HiraganaGui.prediction_failed s message)
           = HiraganaGui.result s
        /\ HiraganaGui.result_fg (HiraganaGui.prediction_failed s message)
           = HiraganaGui.result_fg s).
Proof.
  cbn zeta. split; [| split; [| split; [| split]]].
  - unfold HiraganaGui.predict.
    destruct (model_predict _ _) as [probs |]; [| now destruct s].
    destruct (Np.argmax probs), (Np.max probs); try now destruct s.
    destruct (Np.Qlt_bool _ _); [now destruct s |].
    destruct (nth_error _ _); now destruct s.
  - unfold HiraganaGui.predict. intros ->. reflexivity.
  - unfold HiraganaGui.predict. intros ->. reflexivity.
  - intros probs idx conf Hm Ha Hc. unfold HiraganaGui.predict. rewrite Hm, Ha, Hc.
    split.
    + intros Hge Hnone. apply Qlt_bool_false_iff in Hge. now rewrite Hge, Hnone.
    + intros Hlt. apply Qlt_bool_iff in Hlt. now rewrite Hlt.
  - intros message. now destruct s.
Qed.

(** X28. In the two-family tool switching mode wipes the drawing: the
    image is blank again and the three result texts are back to their
    placeholders, whatever was drawn or recognised; the label table and
    caption follow the selection ("hiragana", anything else counting as
    katakana) and the pointer, brush and dialogs are kept. *)
Theorem katakana_change_mode_clears_drawing (s : KatakanaGui.app) :
  let s' := KatakanaGui.change_mode s in
  KatakanaGui.image s' = Img.Image_new 300 300 255
  /\ (KatakanaGui.result_label s' = KatakanaGui.Draw_a_character
      /\ KatakanaGui.confidence_label s' = KatakanaGui.No_confidence
      /\ KatakanaGui.top_predictions_label s' = KatakanaGui.Will_appear_here)
  /\ (KatakanaGui.current_mode s' = KatakanaGui.mode_var s
      /\ KatakanaGui.current_labels s'
         = match KatakanaGui.mode_var s with
           | hiragana => hiragana_labels
           | _ => katakana_labels
           end
      /\ KatakanaGui.mode_label s'
         = match KatakanaGui.mode_var s with
           | hiragana => "Current mode: Hiragana"
           | _ => "Current mode: Katakana"
           end)
  /\ (KatakanaGui.last_x s' = KatakanaGui.last_x s
      /\ KatakanaGui.last_y s' = KatakanaGui.last_y s
      /\ KatakanaGui.line_width s' = KatakanaGui.line_width s
      /\ KatakanaGui.dialogs s' = KatakanaGui.dialogs s).
Proof.
  destruct s as [cm cl lx ly lw im mv rl cf ml tp dg].
  destruct mv; repeat split.
Qed.

Lemma top_rows_all (labels : list label) (probs : list Q) (idx : list nat) :
  (forall i, In i idx -> i < length labels) ->
  KatakanaGui.top_rows labels probs idx
  = inl (map (fun i => (nth i labels (Plain ""), nth i probs 0%Q)) idx).
Proof.
  induction idx as [| i idx IH]; intros Hall; cbn [KatakanaGui.top_rows map];
    [reflexivity |].
  rewrite (nth_error_nth' _ (Plain "")) by (apply Hall; now left).
  rewrite IH by (intros j Hj; apply Hall; now right). reflexivity.
Qed.

Lemma top_rows_missing (labels : list label) (probs : list Q)
      (pre post : list nat) (i : nat) :
  (forall j, In j pre -> j < length labels) -> length labels <= i ->
  KatakanaGui.top_rows labels probs (pre ++ i :: post) = inr i.
Proof.
  intros Hpre Hi. induction pre as [| j pre IH]; cbn [List.app KatakanaGui.top_rows].
  - apply nth_error_None in Hi. now rewrite Hi.
  - rewrite (nth_error_nth' _ (Plain "")) by (apply Hpre; now left).
    rewrite IH by (intros k Hk; apply Hpre; now right). reflexivity.
Qed.

(** X29. The two-family tool recognises whatever is on the canvas, a
    blank one included, and shows the result at any confidence: given a
    non-empty probability vector and a label table at least as long, it
    shows the label of the first maximum with its probability and the
    top min(5, N) classes with theirs, and no dialog. *)
Theorem katakana_recognize_has_no_threshold (s : KatakanaGui.app) (probs : list Q) :
  model_predict
    (match KatakanaGui.current_mode s with hiragana => hiragana | _ => katakana end)
    (KatakanaGui.preprocess (KatakanaGui.image s)) = Some probs ->
  probs <> [] ->
  length probs <= length (KatakanaGui.current_labels s) ->
  exists a,
    Np.argmax probs = Some a
    /\ KatakanaGui.recognize s
       = KatakanaGui.set_top_predictions
           (KatakanaGui.set_result s
              (KatakanaGui.Shown (nth a (KatakanaGui.current_labels s) (Plain "")))
              (KatakanaGui.Confidence (nth a probs 0%Q)))
           (KatakanaGui.Lines
              (map (fun i => (nth i (KatakanaGui.current_labels s) (Plain ""),
                              nth i probs 0%Q))
                   (top_indices probs)))
    /\ length (top_indices probs) = Nat.min 5 (length probs).
Proof.
  intros Hm Hne Hlen.
  destruct (argmax_spec probs Hne) as (a & Ha & Halen & _).
  destruct (top_indices_basic probs) as (Htl & Htin).
  exists a. split; [exact Ha | split; [| exact Htl]].
  unfold KatakanaGui.recognize. cbv zeta.
  rewrite Hm, Ha. rewrite (nth_error_nth' _ (Plain "")) by lia.
  cbn [KatakanaGui.current_labels KatakanaGui.set_result].
  fold (top_indices probs). rewrite top_rows_all; [reflexivity |].
  intros i Hi. specialize (Htin i Hi). lia.
Qed.

(** X30. With a label table shorter than the probability vector the
    two-family tool can stop half-way: if the class of the maximum has a
    label but one of the top indices has none, the result and confidence
    texts already show the new prediction, the top-predictions text is
    left as it was, and the error dialog carries the message of the
    lookup of the first top index without label. *)
Theorem katakana_recognize_partial_update
        (s : KatakanaGui.app) (probs : list Q) (a i : nat) (pre post : list nat) :
  model_predict
    (match KatakanaGui.current_mode s with hiragana => hiragana | _ => katakana end)
    (KatakanaGui.preprocess (KatakanaGui.image s)) = Some probs ->
  Np.argmax probs = Some a ->
  a < length (KatakanaGui.current_labels s) ->
  top_indices probs = pre ++ i :: post ->
  (forall j, In j pre -> j < length (KatakanaGui.current_labels s)) ->
  length (KatakanaGui.current_labels s) <= i ->
  KatakanaGui.recognize s
  = KatakanaGui.recognition_failed
      (KatakanaGui.set_result s
         (KatakanaGui.Shown (nth a (KatakanaGui.current_labels s) (Plain "")))
         (KatakanaGui.Confidence (nth a probs 0%Q)))
      (label_error i)
  /\ KatakanaGui.top_predictions_label (KatakanaGui.recognize s)
     = KatakanaGui.top_predictions_label s
  /\ KatakanaGui.dialogs (KatakanaGui.recognize s)
     = showerror "Error" (failure_text "Recognition failed" (label_error i))
         :: KatakanaGui.dialogs s.
Proof.
  intros Hm Ha Halen Htop Hpre Hi.
  assert (E : KatakanaGui.recognize s
              = KatakanaGui.recognition_failed
                  (KatakanaGui.set_result s
                     (KatakanaGui.Shown (nth a (KatakanaGui.current_labels s) (Plain "")))
                     (KatakanaGui.Confidence (nth a probs 0%Q)))
                  (label_error i)).
  { unfold KatakanaGui.recognize. cbv zeta.
    rewrite Hm, Ha. rewrite (nth_error_nth' _ (Plain "")) by lia.
    cbn [KatakanaGui.current_labels KatakanaGui.set_result].
    fold (top_indices probs). rewrite Htop.
    now rewrite (top_rows_missing _ _ pre post i Hpre Hi). }
  rewrite E. split; [| split]; reflexivity.
Qed.

End SingleFamily.

(* ================================================================== *)
(** * Concrete sessions for the further properties *)

Lemma redo_then_undo_witness :
  let s := set_redo_stack (@init Sample.collaborators) [[]] in
  strokes (@undo Sample.collaborators (@redo Sample.collaborators s)) = strokes s
  /\ redo_stack (@undo Sample.collaborators (@redo Sample.collaborators s)) = redo_stack s.
Proof.
  cbn zeta.
  apply (@redo_then_undo_restores Sample.collaborators
           (set_redo_stack (@init Sample.collaborators) [[]])).
  cbn. discriminate.
Defined.

Lemma undo_n_then_redo_n_witness :
  let s := set_strokes (@init Sample.collaborators) [[]; []] in
  let u := Nat.iter 1 (@undo Sample.collaborators) s in
  strokes (Nat.iter 1 (@redo Sample.collaborators) u) = strokes s
  /\ redo_stack (Nat.iter 1 (@redo Sample.collaborators) u) = redo_stack s.
Proof.
  cbn zeta.
  apply (@undo_n_then_redo_n_restores Sample.collaborators
           (set_strokes (@init Sample.collaborators) [[]; []]) 1).
  cbn. lia.
Defined.

Lemma undo_past_the_start_witness :
  let s := set_strokes (@init Sample.collaborators) [[]] in
  strokes (Nat.iter 3 (@undo Sample.collaborators) s) = [].
Proof.
  cbn zeta.
  apply (@undo_past_the_start Sample.collaborators
           (set_strokes (@init Sample.collaborators) [[]]) 3).
  cbn. lia.
Defined.

Lemma session_in_sync_witness :
  let session :=
    [Button1 (Sample.at_xy 40 40); B1Motion (Sample.at_xy 60 40);
     ButtonRelease1 (Sample.at_xy 60 40);
     Button1 (Sample.at_xy 100 100); B1Motion (Sample.at_xy 120 100);
     ButtonRelease1 (Sample.at_xy 120 100); Undo] in
  exists s,
    @run Sample.collaborators (@init Sample.collaborators) session = Some s
    /\ strokes s = [[(40, 40, 60, 40, 7)]]%Z
    /\ redo_stack s = [[(100, 100, 120, 100, 7)]]%Z
    /\ Np.any_lt255 (image s) = true
    /\ image s = @replay Sample.collaborators 320 (strokes s).
Proof.
  cbn zeta.
  assert (E0 : option_map (fun x => (strokes x, redo_stack x, Np.any_lt255 (image x)))
                 (@run Sample.collaborators (@init Sample.collaborators)
                    [Button1 (Sample.at_xy 40 40); B1Motion (Sample.at_xy 60 40);
                     ButtonRelease1 (Sample.at_xy 60 40);
                     Button1 (Sample.at_xy 100 100); B1Motion (Sample.at_xy 120 100);
                     ButtonRelease1 (Sample.at_xy 120 100); Undo])
               = Some ([[(40, 40, 60, 40, 7)]]%Z, [[(100, 100, 120, 100, 7)]]%Z, true)).
  { vm_compute. reflexivity. }
  destruct (@run Sample.collaborators (@init Sample.collaborators)
              [Button1 (Sample.at_xy 40 40); B1Motion (Sample.at_xy 60 40);
               ButtonRelease1 (Sample.at_xy 60 40);
               Button1 (Sample.at_xy 100 100); B1Motion (Sample.at_xy 120 100);
               ButtonRelease1 (Sample.at_xy 120 100); Undo])
    as [s |] eqn:E; [| discriminate E0].
  cbn [option_map] in E0. injection E0 as Es Er Ei.
  exists s. split; [reflexivity |].
  split; [exact Es | split; [exact Er | split; [exact Ei |]]].
  apply (@session_keeps_image_in_sync Sample.collaborators _ s E).
Defined.


Lemma motion_after_release_witness :
  exists s',
    @run Sample.collaborators
      (@_end_stroke Sample.collaborators
         (_start_stroke (@init Sample.collaborators) (Sample.at_xy 40 40))
         (Sample.at_xy 40 40))
      [B1Motion (Sample.at_xy 60 60); B1Motion (Sample.at_xy 70 60)] = Some s'
    /\ strokes s' = [] ++ [[] ++ [(60, 60, 70, 60, 7)%Z]]
    /\ redo_stack s' = [].
Proof.
  apply (@motion_after_release_extends_last_stroke Sample.collaborators
           (_start_stroke (@init Sample.collaborators) (Sample.at_xy 40 40))
           [] [] (Sample.at_xy 40 40) (Sample.at_xy 60 60) (Sample.at_xy 70 60)).
  reflexivity.
Defined.

Lemma paint_touches_only_last_stroke_witness :
  let s := _start_stroke (@init Sample.collaborators) (Sample.at_xy 40 40) in
  exists s',
    @_paint Sample.collaborators s (Sample.at_xy 60 40) = Returned s'
    /\ strokes s = [[]]
    /\ strokes s' = [[(40, 40, 60, 40, 7)]]%Z
    /\ length (strokes s') = length (strokes s)
    /\ exists added, length added <= 1
         /\ last (strokes s') [] = last (strokes s) [] ++ added.
Proof.
  cbn zeta.
  assert (E0 : match @_paint Sample.collaborators
                       (_start_stroke (@init Sample.collaborators) (Sample.at_xy 40 40))
                       (Sample.at_xy 60 40) with
               | Returned x => Some (strokes x)
               | Raised _ _ => None
               end = Some [[(40, 40, 60, 40, 7)]]%Z).
  { vm_compute. reflexivity. }
  destruct (@_paint Sample.collaborators
              (_start_stroke (@init Sample.collaborators) (Sample.at_xy 40 40))
              (Sample.at_xy 60 40)) as [s' | err s'] eqn:E; [| discriminate E0].
  injection E0 as Es.
  exists s'. split; [reflexivity |]. split; [reflexivity |].
  split; [exact Es |].
  destruct (@paint_touches_only_last_stroke Sample.collaborators _ s' _ E)
    as (Hlen & _ & _ & Hadd).
  split; [exact Hlen | exact Hadd].
Defined.

Lemma update_brush_witness :
  (4 <= line_width (_update_brush (@init Sample.collaborators) (15 # 2)) <= 12)%Z.
Proof.
  apply (@update_brush_truncates (@init Sample.collaborators) (15 # 2)).
  - unfold Qle. simpl. lia.
  - unfold Qle. simpl. lia.
Defined.

Lemma first_row_has_headline_confidence_witness :
  exists t a,
    hd_error (@top_indices Sample.collaborators Sample.tied_probs) = Some t
    /\ Np.argmax Sample.tied_probs = Some a
    /\ a <= t < length Sample.tied_probs.
Proof.
  destruct (@first_row_has_headline_confidence Sample.collaborators Sample.tied_probs)
    as (t & a & Ht & Ha & Hat & _).
  - discriminate.
  - exists t, a. auto.
Defined.

Lemma recognize_success_witness :
  let s := set_image (@init Sample.collaborators) Sample.bar_canvas in
  length (top_table (@recognize Sample.collaborators s)) = 5
  /\ dialogs (@recognize Sample.collaborators s) = dialogs s.
Proof.
  cbn zeta.
  destruct (@recognize_success Sample.collaborators
              (set_image (@init Sample.collaborators) Sample.bar_canvas)
              Sample.tied_probs) as (a & _ & _ & Hl & Hd).
  - vm_compute. reflexivity.
  - reflexivity.
  - discriminate.
  - cbn. lia.
  - split; [exact Hl | exact Hd].
Defined.

Lemma recognize_failure_witness :
  let s := set_current_labels
             (set_image (@init Sample.collaborators) Sample.bar_canvas) [] in
  @recognize Sample.collaborators s
  = recognition_failed s (@label_error Sample.collaborators 0)
  /\ dialogs (recognition_failed s (@label_error Sample.collaborators 0))
     = showerror "Error"
         (failure_text "Recognition failed" (@label_error Sample.collaborators 0))
         :: dialogs s
  /\ top_table (recognition_failed s (@label_error Sample.collaborators 0))
     = top_table s.
Proof.
  cbn zeta.
  destruct (@recognize_failure_keeps_results Sample.collaborators
              (set_current_labels
                 (set_image (@init Sample.collaborators) Sample.bar_canvas) []))
    as (_ & _ & Hlabel & Hkeeps).
  - vm_compute. reflexivity.
  - split.
    + apply (Hlabel Sample.tied_probs 0); [reflexivity | reflexivity | cbn; lia].
    + destruct (Hkeeps (@label_error Sample.collaborators 0)) as (Hd & _ & _ & Ht).
      split; [exact Hd | exact Ht].
Defined.

Lemma recognize_partial_results_witness :
  let s := set_current_labels
             (set_current_mode
                (set_image (@init Sample.collaborators) Sample.bar_canvas) kuzushiji)
             [Plain "a"; Plain "b"] in
  @recognize Sample.collaborators s
  = recognition_failed
      (set_top_table
         (set_conf_bar
            (set_result_label s
               (display (current_language s) (nth 1 (current_labels s) (Plain ""))))
            (int (nth 1 Sample.distinct_probs 0 * 100)%Q))
         (map (Gesture.row (current_language s) (current_labels s) Sample.distinct_probs)
              [1]))
      (@label_error Sample.collaborators 3).
Proof.
  cbn zeta.
  apply (@recognize_partial_results Sample.collaborators
           (set_current_labels
              (set_current_mode
                 (set_image (@init Sample.collaborators) Sample.bar_canvas) kuzushiji)
              [Plain "a"; Plain "b"])
           Sample.distinct_probs 1 3 [1] [5; 0; 6]).
  - vm_compute. reflexivity.
  - reflexivity.
  - vm_compute. reflexivity.
  - cbn. lia.
  - vm_compute. reflexivity.
  - intros j [<- | []]. cbn. lia.
  - cbn. lia.
Defined.

Lemma conf_bar_stays_in_range_witness :
  (0 <= conf_bar (@recognize Sample.collaborators
                    (set_image (@init Sample.collaborators) Sample.bar_canvas)) <= 100)%Z.
Proof.
  apply (@conf_bar_stays_in_range Sample.collaborators
           (set_image (@init Sample.collaborators) Sample.bar_canvas)).
  - cbn. lia.
  - intros probs E. change (Some Sample.tied_probs = Some probs) in E.
    injection E as <-. unfold Sample.tied_probs.
    repeat constructor; discriminate.
Defined.

Lemma tone_saturates_witness :
  (Normalizer.tone 100 == 3059375 # 4194304)%Q /\ (Normalizer.tone 100 < 1)%Q.
Proof.
  destruct (tone_saturates 100 ltac:(lia)) as (_ & Hlight & _).
  destruct (Hlight ltac:(lia)) as (Heq & Hlt).
  split; [| exact Hlt].
  rewrite Heq. vm_compute. reflexivity.
Defined.

Lemma square_shows_the_ink_box_witness :
  Img.size (Normalizer.squared (Normalizer.padded (Normalizer.cropped Sample.bar_canvas)))
  = (136, 136).
Proof.
  assert (Hany : Np.any_lt255 Sample.bar_canvas = true) by (vm_compute; reflexivity).
  assert (Hbox : Normalizer.ink_bbox Sample.bar_canvas = (100, 197, 150, 156))
    by (vm_compute; reflexivity).
  pose proof (square_shows_the_ink_box_centred Sample.bar_canvas Hany) as T.
  rewrite Hbox in T. cbv beta iota zeta in T.
  destruct T as (T & _). exact T.
Defined.

Lemma normalization_ignores_position_witness :
  let s := set_image (@init Sample.collaborators) Sample.bar_canvas in
  @_preprocess_for_model Sample.collaborators
    (set_image s (Canvas.moved (image s) 50 20))
  = @_preprocess_for_model Sample.collaborators s.
Proof.
  cbn zeta.
  assert (Hrect : Canvas.rectangular Sample.bar_canvas = true) by (vm_compute; reflexivity).
  assert (Hany : Np.any_lt255 Sample.bar_canvas = true) by (vm_compute; reflexivity).
  assert (Hbox : Normalizer.ink_bbox Sample.bar_canvas = (100, 197, 150, 156))
    by (vm_compute; reflexivity).
  pose proof (@normalization_ignores_position Sample.collaborators
                (set_image (@init Sample.collaborators) Sample.bar_canvas) 50 20
                Hrect Hany) as T.
  cbn [image set_image] in T. rewrite Hbox in T. cbv beta iota zeta in T.
  assert (Hw : Img.width Sample.bar_canvas = 320) by (vm_compute; reflexivity).
  assert (Hh : Img.height Sample.bar_canvas = 320) by (vm_compute; reflexivity).
  rewrite Hw, Hh in T.
  destruct (T ltac:(lia) ltac:(lia)) as (_ & _ & E). exact E.
Defined.

Lemma katakana_recognize_witness :
  exists a,
    Np.argmax Sample.tied_probs = Some a
    /\ KatakanaGui.result_label
         (@KatakanaGui.recognize Sample.collaborators
            (@KatakanaGui.init Sample.collaborators))
       = KatakanaGui.Shown (nth a Sample.ten_labels (Plain "")).
Proof.
  destruct (@katakana_recognize_has_no_threshold Sample.collaborators
              (@KatakanaGui.init Sample.collaborators) Sample.tied_probs)
    as (a & Ha & E & _).
  - reflexivity.
  - discriminate.
  - cbn. lia.
  - exists a. split; [exact Ha |]. rewrite E. reflexivity.
Defined.

Lemma katakana_partial_update_witness :
  let s := KatakanaGui.mk_app katakana [Plain "a"; Plain "b"] None None 15
             (Img.Image_new 300 300 255) katakana KatakanaGui.Draw_a_character
             KatakanaGui.No_confidence "Current mode: Katakana"
             KatakanaGui.Will_appear_here [] in
  KatakanaGui.top_predictions_label (@KatakanaGui.recognize Sample.collaborators s)
  = KatakanaGui.Will_appear_here
  /\ KatakanaGui.dialogs (@KatakanaGui.recognize Sample.collaborators s)
     = [showerror "Error"
          (failure_text "Recognition failed" (@label_error Sample.collaborators 3))].
Proof.
  cbn zeta.
  destruct (@katakana_recognize_partial_update Sample.collaborators
              (KatakanaGui.mk_app katakana [Plain "a"; Plain "b"] None None 15
                 (Img.Image_new 300 300 255) katakana KatakanaGui.Draw_a_character
                 KatakanaGui.No_confidence "Current mode: Katakana"
                 KatakanaGui.Will_appear_here [])
              Sample.distinct_probs 1 3 [1] [5; 0; 6]) as (_ & Ht & Hd).
  - reflexivity.
  - vm_compute. reflexivity.
  - cbn. lia.
  - vm_compute. reflexivity.
  - intros j [<- | []]. cbn. lia.
  - cbn. lia.
  - split; [exact Ht | exact Hd].
Defined.
